(** * The combo-box state engine of [@react-stately/combobox]

    A shallow embedding of [useComboBoxState.ts]: the recursive [filter] over
    the node tree, the hook [useComboBoxState] with the handlers it builds
    ([onInputChange], [setSelectedKey], [open]), the default filter predicate
    and the suggestion matcher, followed by the properties established about
    them.

    A JavaScript string is a [string], one character per code unit; an
    [option] stands for a value that may be undefined; [toLowerCase] and the
    collator of the props are parameters of the hook. *)

From Stdlib Require Import ZArith String Ascii Lia.
From stdpp Require Import base option list strings gmap.

Local Open Scope string_scope.
Local Open Scope list_scope.
Local Open Scope nat_scope.

(** ** JavaScript values used by the hook *)

(** React's [Key] is [string | number]; number keys are taken to be integers. *)
Inductive Key :=
  | KStr (s : string)
  | KNum (n : Z).

#[global] Instance Key_eq_dec : EqDecision Key.
Proof. solve_decision. Defined.

Module JS.

(** Truthiness of a string: every string but the empty one. *)
Definition truthy_string (s : string) : bool :=
  negb (String.eqb s "").

(** Truthiness of a key: every key but [''] and [0]. *)
Definition truthy_key (k : Key) : bool :=
  match k with
  | KStr s => truthy_string s
  | KNum n => negb (Z.eqb n 0)
  end.

(** Truthiness of a possibly undefined value. *)
Definition truthy {A} (t : A -> bool) (v : option A) : bool :=
  match v with
  | Some a => t a
  | None => false
  end.

(** [a || b] on possibly undefined values. *)
Definition or_else {A} (t : A -> bool) (a b : option A) : option A :=
  if truthy t a then a else b.

(** [s.slice(start, end)] for [0 <= start <= end]; the end is clamped to
    the length of [s]. *)
Definition slice (s : string) (start end_ : nat) : string :=
  String.substring start (end_ - start) s.

(** [s.replace(pattern, replacement)] with a string pattern: only the first
    occurrence of the pattern is replaced. *)
Fixpoint replace (pattern replacement s : string) : string :=
  if String.prefix pattern s
  then replacement +:+ String.substring (String.length pattern) (String.length s) s
  else match s with
       | EmptyString => EmptyString
       | String c s' => String c (replace pattern replacement s')
       end.

End JS.

(** ** The node tree *)

Inductive NodeType := item | section.

#[global] Instance NodeType_eq_dec : EqDecision NodeType.
Proof. solve_decision. Defined.

(** The fields of a node that the hook reads. *)
#[warnings="-register-all"]
Inductive Node := mkNode {
  type : NodeType;
  key : Key;
  textValue : string;
  hasChildNodes : bool;
  childNodes : list Node
}.

(** [node.type === 'section'] *)
Definition is_section (node : Node) : bool :=
  bool_decide (type node = section).

(** [{...node}] followed by [copy.childNodes = children]. *)
Definition with_childNodes (node : Node) (children : list Node) : Node :=
  {| type := type node; key := key node; textValue := textValue node;
     hasChildNodes := hasChildNodes node; childNodes := children |}.

(** ** [filter] *)

Section Filter.

Variable filterFn : Node -> bool.

(** One turn of the loop of [filter]: the nodes pushed for [node]. *)
Fixpoint filter_step (node : Node) : list Node :=
  if is_section node && hasChildNodes node then
    let filtered := flat_map filter_step (childNodes node) in
    if 0 <? length filtered then [with_childNodes node filtered] else []
  else if negb (is_section node) && filterFn node then [node]
  else [].

End Filter.

(** [filter(nodes, filterFn)]: the loop over [nodes]. *)
Definition filter (nodes : list Node) (filterFn : Node -> bool) : list Node :=
  flat_map (filter_step filterFn) nodes.

(** ** Collections *)

(** A collection exposes the entries of its key map in insertion order and
    the top-level nodes it iterates over. *)
Record Collection := {
  keyMap : list (Key * Node);
  iterable : list Node
}.

(** [Map.prototype.get] *)
Fixpoint Map_get (k : Key) (m : list (Key * Node)) : option Node :=
  match m with
  | [] => None
  | (k', v) :: m' => if decide (k' = k) then Some v else Map_get k m'
  end.

(** [Map.prototype.set]: a key already present keeps its place. *)
Fixpoint Map_set (k : Key) (v : Node) (m : list (Key * Node)) : list (Key * Node) :=
  match m with
  | [] => [(k, v)]
  | (k', v') :: m' =>
    if decide (k' = k) then (k, v) :: m' else (k', v') :: Map_set k v m'
  end.

(** Modelled from the spec: the collection class belongs to the list-state
    package, not to this one.  Lookup by key reads the key map. *)
Definition getItem (collection : Collection) (k : Key) : option Node :=
  Map_get k (keyMap collection).

(** Modelled from the spec: the collection class belongs to the list-state
    package, not to this one.  The size counts all keyed nodes, items and
    sections alike. *)
Definition size (collection : Collection) : nat :=
  length (keyMap collection).

(** Modelled from the spec: the collection class belongs to the list-state
    package, not to this one.  Nodes are keyed along a depth-first, pre-order
    walk of the tree in which sections are visited and then their children
    (items have none). *)
Fixpoint visit (node : Node) (m : list (Key * Node)) : list (Key * Node) :=
  let m := Map_set (key node) node m in
  if is_section node
  then fold_left (fun m child => visit child m) (childNodes node) m
  else m.

(** Modelled from the spec: the collection class belongs to the list-state
    package, not to this one.  A collection is built from an ordered sequence
    of nodes; iterating it yields those nodes in order. *)
Definition ListCollection (nodes : list Node) : Collection :=
  {| keyMap := fold_left (fun m node => visit node m) nodes [];
     iterable := nodes |}.

(** The keys of a collection, in order. *)
Definition keys (collection : Collection) : list Key :=
  map fst (keyMap collection).

(** ** Effects of the hook *)

(** ['first' | 'last'] *)
Inductive FocusStrategy := focus_first | focus_last.

(** The calls the hook makes to its collaborators: the callbacks of the
    props, the setter of the controlled-state cell of the input value, and
    the operations of the underlying menu trigger state. *)
Inductive Call :=
  | props_onInputChange_call (value : string)
  | onSelectionChange_call (key : option Key)
  | onFilter_call (value : option string)
  | setInputValue_call (value : string)
  | triggerState_open_call (focusStrategy : option FocusStrategy)
  | triggerState_setOpen_call (isOpen : bool)
  | triggerState_toggle_call (focusStrategy : option FocusStrategy)
  | triggerState_close_call.

#[global] Instance FocusStrategy_eq_dec : EqDecision FocusStrategy.
Proof. solve_decision. Defined.

#[global] Instance Call_eq_dec : EqDecision Call.
Proof. solve_decision. Defined.

(** The cells the hook keeps between renders. *)
Record Hooks := {
  hook_isFocused : bool;                    (* useState(false) *)
  hook_inputValue : string;                 (* the cell of useControlledState *)
  hook_lastSelectedKeyProp : option Key;    (* useRef('') *)
  hook_lastValue : string                   (* useRef('') *)
}.

(** A handler runs on the cells and appends to the log of calls. *)
Definition Act (A : Type) : Type := Hooks -> A * Hooks * list Call.

Definition ret {A} (a : A) : Act A :=
  fun hooks => (a, hooks, []).

Definition bind {A B} (c : Act A) (k : A -> Act B) : Act B :=
  fun hooks =>
    let '(a, hooks1, log1) := c hooks in
    let '(b, hooks2, log2) := k a hooks1 in
    (b, hooks2, log1 ++ log2).

Definition call (c : Call) : Act unit :=
  fun hooks => (tt, hooks, [c]).

Definition get : Act Hooks :=
  fun hooks => (hooks, hooks, []).

Definition put (hooks : Hooks) : Act unit :=
  fun _ => (tt, hooks, []).

Declare Scope act_scope.
Delimit Scope act_scope with act.
Notation "x <- c ;; k" := (bind c (fun x => k))
  (at level 100, c at next level, right associativity) : act_scope.
Notation "c ;; k" := (bind c (fun _ => k))
  (at level 100, right associativity) : act_scope.

(** [if (b) { c }] *)
Definition when (b : bool) (c : Act unit) : Act unit :=
  if b then c else ret tt.

(** The result, the cells and the log a handler leaves behind. *)
Definition result_of {A} (c : Act A) (hooks : Hooks) : A :=
  fst (fst (c hooks)).

Definition cells_after {A} (c : Act A) (hooks : Hooks) : Hooks :=
  snd (fst (c hooks)).

Definition log_of {A} (c : Act A) (hooks : Hooks) : list Call :=
  snd (c hooks).

(** A render either returns or throws. *)
Inductive Completion (A : Type) :=
  | Normal (a : A)
  | Throw (message : string).
Arguments Normal {A} a.
Arguments Throw {A} message.

(** ** [useComboBoxState] *)

Record ComboBoxStateProps := {
  props_items : list Node;                   (* the nodes built from the children *)
  props_selectedKey : option Key;
  props_defaultSelectedKey : option Key;
  props_inputValue : option string;
  props_defaultInputValue : option string;
  props_allowsCustomValue : bool;
  props_onInputChange : bool;                (* is the callback supplied? *)
  props_onSelectionChange : bool;
  props_onFilter : bool
}.

(** What the collaborators of the hook hold during a render: the open flag of
    the menu trigger state and the focused key of the selection manager. *)
Record Env := {
  triggerState_isOpen : bool;
  selectionManager_focusedKey : option Key
}.

(** The object the hook returns (the selection manager, the disabled keys and
    the selected item, which the list-state primitive hands through, are left
    out). *)
Module ComboBoxState.
Record t := {
  (* ...triggerState *)
  setOpen : bool -> Act unit;
  toggle : option FocusStrategy -> Act unit;
  close : Act unit;
  (* the fields the hook sets *)
  open : option FocusStrategy -> Act unit;
  selectedKey : option Key;
  setSelectedKey : option Key -> Act unit;
  isFocused : bool;
  setFocused : bool -> Act unit;
  collection : Collection;
  isOpen : bool;
  inputValue : string;
  setInputValue : string -> Act unit;
  suggestedValue : option string
}.
End ComboBoxState.

(** Modelled from the spec: the menu trigger primitive belongs to the menu
    package, not to this one.  It supplies the open flag and the operations
    [open], [setOpen], [toggle] and [close]; a request forwarded to it is
    recorded as a call. *)
Module triggerState.
Definition open (focusStrategy : option FocusStrategy) : Act unit :=
  call (triggerState_open_call focusStrategy).
Definition setOpen (isOpen : bool) : Act unit :=
  call (triggerState_setOpen_call isOpen).
Definition toggle (focusStrategy : option FocusStrategy) : Act unit :=
  call (triggerState_toggle_call focusStrategy).
Definition close : Act unit :=
  call triggerState_close_call.
End triggerState.

(** Modelled from the spec: the list-state primitive belongs to the
    list-state package, not to this one.  It builds the collection from the
    nodes of the props; when a filter is set the collection is built from the
    filtered nodes, otherwise from the nodes as they are. *)
Definition useSingleSelectListState_collection
    (props : ComboBoxStateProps)
    (filter : option (list Node -> list Node)) : Collection :=
  match filter with
  | Some f => ListCollection (f (props_items props))
  | None => ListCollection (props_items props)
  end.

(** Modelled from the spec: the controlled-state primitive belongs to the
    utilities package, not to this one.  The value is the one of the props
    when it is supplied and the one of the cell otherwise. *)
Definition useControlledState_value (value : option string) (hooks : Hooks) : string :=
  match value with
  | Some v => v
  | None => hook_inputValue hooks
  end.

(** Modelled from the spec: the controlled-state primitive belongs to the
    utilities package, not to this one.  Its setter notifies [onChange] when
    the value differs from the current one (setting the current text again
    notifies nobody, as the comment in [setSelectedKey] has it) and stores the
    value in the cell when the value is not controlled. *)
Definition useControlledState_setValue
    (value : option string) (onChange : string -> Act unit) (v : string) : Act unit :=
  (hooks <- get ;;
   when (negb (String.eqb (useControlledState_value value hooks) v)) (onChange v) ;;
   match value with
   | Some _ => ret tt
   | None =>
     hooks <- get ;;
     put {| hook_isFocused := hook_isFocused hooks;
            hook_inputValue := v;
            hook_lastSelectedKeyProp := hook_lastSelectedKeyProp hooks;
            hook_lastValue := hook_lastValue hooks |}
   end)%act.

Fixpoint computeKeyFromValue_loop (value : string) (entries : list (Key * Node)) : option Key :=
  match entries with
  | [] => None
  | (itemKey, node) :: rest =>
    if negb (is_section node) then
      let itemText := textValue node in
      if String.eqb itemText value then Some itemKey
      else computeKeyFromValue_loop value rest
    else computeKeyFromValue_loop value rest
  end.

Definition computeKeyFromValue (value : string) (collection : Collection) : option Key :=
  computeKeyFromValue_loop value (keyMap collection).

(** [toString(val)] on a string that may be undefined. *)
Definition toString (val : option string) : option string := val.

Section Hook.

(** [collator.compare] of the props, and [String.prototype.toLowerCase]. *)
Variable collator_compare : string -> string -> Z.
Variable toLowerCase : string -> string.

Variable props : ComboBoxStateProps.

Definition itemsControlled : bool := props_onFilter props.

Definition unfilteredCollection : Collection :=
  useSingleSelectListState_collection props None.

(** The check made on every run of the hook body. *)
Definition mismatch : bool :=
  if JS.truthy JS.truthy_key (props_selectedKey props)
     && JS.truthy JS.truthy_string (props_inputValue props)
  then
    let selectedItem := props_selectedKey props ≫= getItem unfilteredCollection in
    let itemText := match selectedItem with Some i => textValue i | None => "" end in
    negb (bool_decide (Some itemText = props_inputValue props))
  else false.

(** The default value handed to the controlled-state cell. *)
Definition initialInputValue : string :=
  let initialSelectedKeyText :=
    textValue <$> (props_selectedKey props ≫= getItem unfilteredCollection) in
  let initialDefaultSelectedKeyText :=
    textValue <$> (props_defaultSelectedKey props ≫= getItem unfilteredCollection) in
  default ""
    (JS.or_else JS.truthy_string
       (JS.or_else JS.truthy_string
          (JS.or_else JS.truthy_string
             initialSelectedKeyText (toString (props_defaultInputValue props)))
          initialDefaultSelectedKeyText)
       (Some "")).

(** The cells on the first run: [useState(value || defaultValue)] inside the
    controlled-state primitive, [useState(false)] and the two refs. *)
Definition initialHooks : Hooks :=
  {| hook_isFocused := false;
     hook_inputValue :=
       default initialInputValue
         (JS.or_else JS.truthy_string
            (toString (props_inputValue props)) (Some initialInputValue));
     hook_lastSelectedKeyProp := Some (KStr "");
     hook_lastValue := "" |}.

(** The rest of the section is one run of the hook body on the cells
    [rendered]; the closures it builds keep referring to them. *)
Variable rendered : Hooks.
Variable env : Env.

Definition inputValue : string :=
  useControlledState_value (toString (props_inputValue props)) rendered.

Definition selectedKey : option Key :=
  JS.or_else JS.truthy_key
    (props_selectedKey props) (computeKeyFromValue inputValue unfilteredCollection).

Definition onInputChange (value : string) : Act unit :=
  (when (props_onInputChange props) (call (props_onInputChange_call value)) ;;
   let newSelectedKey := computeKeyFromValue value unfilteredCollection in
   when (negb (bool_decide (newSelectedKey = selectedKey)))
     (when (props_onSelectionChange props)
        (call (onSelectionChange_call newSelectedKey))))%act.

Definition setInputValue (value : string) : Act unit :=
  (call (setInputValue_call value) ;;
   useControlledState_setValue (toString (props_inputValue props)) onInputChange value)%act.

Definition setSelectedKey (key : option Key) : Act unit :=
  (let item := key ≫= getItem unfilteredCollection in
   let itemText := match item with Some i => textValue i | None => "" end in
   when (JS.truthy_string itemText) (setInputValue itemText) ;;
   when (String.eqb itemText inputValue && negb (bool_decide (selectedKey = key)))
     (when (props_onSelectionChange props)
        (call (onSelectionChange_call key))))%act.

(** The effect that follows [props.selectedKey]. *)
Definition selectedKey_effect : Act unit :=
  (hooks <- get ;;
   when (negb (bool_decide (hook_lastSelectedKeyProp hooks = props_selectedKey props)))
     (setSelectedKey (props_selectedKey props)) ;;
   hooks <- get ;;
   put {| hook_isFocused := hook_isFocused hooks;
          hook_inputValue := hook_inputValue hooks;
          hook_lastSelectedKeyProp := props_selectedKey props;
          hook_lastValue := hook_lastValue hooks |})%act.

Definition lowercaseValue : string :=
  JS.replace " " "" (toLowerCase inputValue).

(** The loop of [defaultFilterFn]; it runs at most once per position of
    [lowercaseNode], which bounds the fuel. *)
Fixpoint defaultFilterFn_loop
    (fuel : nat) (lowercaseNode : string) (sliceLen scan : nat) (match_ : bool) : bool :=
  match fuel with
  | 0 => match_
  | S fuel' =>
    if (scan + sliceLen <=? String.length lowercaseNode) && negb match_ then
      let nodeSlice := JS.slice lowercaseNode scan (scan + sliceLen) in
      let compareVal := collator_compare lowercaseValue nodeSlice in
      let match_ := if Z.eqb compareVal 0 then true else match_ in
      defaultFilterFn_loop fuel' lowercaseNode sliceLen (scan + 1) match_
    else match_
  end.

Definition defaultFilterFn (node : Node) : bool :=
  let scan := 0 in
  let lowercaseNode := JS.replace " " "" (toLowerCase (textValue node)) in
  let sliceLen := String.length lowercaseValue in
  let match_ := false in
  defaultFilterFn_loop (S (String.length lowercaseNode)) lowercaseNode sliceLen scan match_.

(** The effect that reports a new input value to [onFilter]. *)
Definition onFilter_effect : Act unit :=
  (hooks <- get ;;
   when (props_onFilter props && negb (String.eqb (hook_lastValue hooks) inputValue))
     (call (onFilter_call (Some inputValue))) ;;
   hooks <- get ;;
   put {| hook_isFocused := hook_isFocused hooks;
          hook_inputValue := hook_inputValue hooks;
          hook_lastSelectedKeyProp := hook_lastSelectedKeyProp hooks;
          hook_lastValue := inputValue |})%act.

Definition nodeFilter : option (list Node -> list Node) :=
  if itemsControlled || String.eqb inputValue "" then None
  else Some (fun nodes => filter nodes defaultFilterFn).

Definition filteredCollection : Collection :=
  useSingleSelectListState_collection props nodeFilter.

Definition open (focusStrategy : option FocusStrategy) : Act unit :=
  when (0 <? size filteredCollection) (triggerState.open focusStrategy).

Definition filteredTextValues : list string :=
  map (fun item => textValue item) (iterable filteredCollection).

(** The scan over [filteredTextValues], leaving at the first match; when
    nothing matches, [match] is left as it was. *)
Fixpoint suggestedValue_loop
    (sliceLen : nat) (values : list string) (match_ : option string) : option string :=
  match values with
  | [] => match_
  | value :: rest =>
    if JS.truthy_string value then
      let valueSlice := JS.slice value 0 sliceLen in
      if Z.eqb (collator_compare inputValue valueSlice) 0 then Some value
      else suggestedValue_loop sliceLen rest match_
    else suggestedValue_loop sliceLen rest match_
  end.

(** The value the memo computes. *)
Definition suggestedValue : option string :=
  let match_ := None in
  if (0 <? String.length inputValue) && negb (props_allowsCustomValue props) then
    let sliceLen := String.length inputValue in
    let focusedKey := selectionManager_focusedKey env in
    let match_ :=
      if JS.truthy JS.truthy_key focusedKey then
        let focusedText := textValue <$> (focusedKey ≫= getItem filteredCollection) in
        let valueSlice := (fun text => JS.slice text 0 sliceLen) <$> focusedText in
        if JS.truthy JS.truthy_string valueSlice
           && Z.eqb (collator_compare inputValue (default "" valueSlice)) 0
        then focusedText else match_
      else match_ in
    if negb (JS.truthy JS.truthy_string match_)
    then suggestedValue_loop sliceLen filteredTextValues match_
    else match_
  else match_.

Definition setFocused (isFocused : bool) : Act unit :=
  (hooks <- get ;;
   put {| hook_isFocused := isFocused;
          hook_inputValue := hook_inputValue hooks;
          hook_lastSelectedKeyProp := hook_lastSelectedKeyProp hooks;
          hook_lastValue := hook_lastValue hooks |})%act.

Definition useComboBoxState : Completion ComboBoxState.t :=
  if mismatch then Throw "Mismatch between selected item and inputValue!"
  else Normal
    {| ComboBoxState.setOpen := triggerState.setOpen;
       ComboBoxState.toggle := triggerState.toggle;
       ComboBoxState.close := triggerState.close;
       ComboBoxState.open := open;
       ComboBoxState.selectedKey := selectedKey;
       ComboBoxState.setSelectedKey := setSelectedKey;
       ComboBoxState.isFocused := hook_isFocused rendered;
       ComboBoxState.setFocused := setFocused;
       ComboBoxState.collection := filteredCollection;
       ComboBoxState.isOpen :=
         triggerState_isOpen env && hook_isFocused rendered
         && (0 <? size filteredCollection);
       ComboBoxState.inputValue := inputValue;
       ComboBoxState.setInputValue := setInputValue;
       ComboBoxState.suggestedValue := suggestedValue |}.

End Hook.

(** ** [filter] on a store of objects

    The same function once more, on node objects that live in a store and are
    passed by reference, so that copying a section and assigning to the
    [childNodes] of the copy are visible. *)

Module Store.

Abbreviation loc := positive.

(** A node object; its [childNodes] are references. *)
Record Obj := {
  o_type : NodeType;
  o_key : Key;
  o_textValue : string;
  o_hasChildNodes : bool;
  o_childNodes : list loc
}.

Abbreviation store := (gmap loc Obj).

(** [copy.childNodes = children] *)
Definition set_childNodes (children : list loc) (o : Obj) : Obj :=
  {| o_type := o_type o; o_key := o_key o; o_textValue := o_textValue o;
     o_hasChildNodes := o_hasChildNodes o; o_childNodes := children |}.

Section Filter.

(** The predicate receives a reference and may read the store. *)
Variable filterFn : store -> loc -> bool.

(** The call [filter(copyOfChildNodes, filterFn)]. *)
Variable filter_rec : list loc -> store -> option (list loc * store).

(** The loop of [filter] with the array [filteredNode] being built; a
    reference that is not in the store stops it. *)
Fixpoint filter_loop (nodes : list loc) (filteredNode : list loc) (σ : store)
    : option (list loc * store) :=
  match nodes with
  | [] => Some (filteredNode, σ)
  | l :: rest =>
    match σ !! l with
    | None => None
    | Some node =>
      if bool_decide (o_type node = section) && o_hasChildNodes node then
        let copyOfNode := fresh (dom σ) in
        let σ := <[copyOfNode := node]> σ in
        let copyOfChildNodes := o_childNodes node in
        match filter_rec copyOfChildNodes σ with
        | None => None
        | Some (filtered, σ) =>
          if 0 <? length filtered then
            let σ := alter (set_childNodes filtered) copyOfNode σ in
            filter_loop rest (filteredNode ++ [copyOfNode]) σ
          else filter_loop rest filteredNode σ
        end
      else if negb (bool_decide (o_type node = section)) && filterFn σ l then
        filter_loop rest (filteredNode ++ [l]) σ
      else filter_loop rest filteredNode σ
    end
  end.

End Filter.

(** [filter(nodes, filterFn)], with fuel for the depth of the recursion. *)
Fixpoint filter (fuel : nat) (filterFn : store -> loc -> bool)
    (nodes : list loc) (σ : store) : option (list loc * store) :=
  match fuel with
  | 0 => None
  | S fuel' => filter_loop filterFn (filter fuel' filterFn) nodes [] σ
  end.

(** The object at [l] and the objects below it hold the tree [node]. *)
#[warnings="-register-all"]
Inductive repr (σ : store) : loc -> Node -> Prop :=
  | repr_node l o node :
      σ !! l = Some o ->
      o_type o = type node ->
      o_key o = key node ->
      o_textValue o = textValue node ->
      o_hasChildNodes o = hasChildNodes node ->
      Forall2 (repr σ) (o_childNodes o) (childNodes node) ->
      repr σ l node.

(** How a node of the result came about: an item is a reference of the
    source store [σ0]; a section is an object outside [old] that holds the
    fields of its tree and whose children came about the same way. *)
#[warnings="-register-all"]
Inductive emitted (σ0 : store) (old : gset loc) (σ' : store) : loc -> Node -> Prop :=
  | emitted_item l node :
      type node = item ->
      repr σ0 l node ->
      emitted σ0 old σ' l node
  | emitted_section l o node :
      type node = section ->
      l ∉ old ->
      σ' !! l = Some o ->
      o_type o = type node ->
      o_key o = key node ->
      o_textValue o = textValue node ->
      o_hasChildNodes o = hasChildNodes node ->
      Forall2 (emitted σ0 old σ') (o_childNodes o) (childNodes node) ->
      emitted σ0 old σ' l node.

End Store.

(** The depth of a tree, which bounds the recursion of [filter]. *)
Fixpoint depth (node : Node) : nat :=
  S (list_max (map depth (childNodes node))).

Definition depth_list (nodes : list Node) : nat :=
  list_max (map depth nodes).

(** The nodes of a tree along the walk that keys them: a node, then, for a
    section, the nodes of its children. *)
Fixpoint walk_node (node : Node) : list Node :=
  node :: (if is_section node then flat_map walk_node (childNodes node) else []).

Definition walk (nodes : list Node) : list Node :=
  flat_map walk_node nodes.

(** Every section of the tree is flagged as having children and has one. *)
Fixpoint populated (node : Node) : bool :=
  if is_section node
  then hasChildNodes node
       && (0 <? length (childNodes node))
       && forallb populated (childNodes node)
  else true.

(** ** A concrete setting for examples *)

Module Sample.

(** Lower-casing of the letters A to Z. *)
Definition toLowerCase_char (c : ascii) : ascii :=
  let n := nat_of_ascii c in
  if (65 <=? n) && (n <=? 90) then ascii_of_nat (n + 32) else c.

Fixpoint toLowerCase (s : string) : string :=
  match s with
  | EmptyString => EmptyString
  | String c s' => String (toLowerCase_char c) (toLowerCase s')
  end.

(** A collator that compares code units. *)
Definition compare (a b : string) : Z :=
  match String.compare a b with
  | Eq => 0%Z
  | Lt => (-1)%Z
  | Gt => 1%Z
  end.

Definition item_node (k : Key) (text : string) : Node :=
  {| type := item; key := k; textValue := text;
     hasChildNodes := false; childNodes := [] |}.

Definition section_node (k : Key) (children : list Node) : Node :=
  {| type := section; key := k; textValue := "";
     hasChildNodes := true; childNodes := children |}.

Definition props_of (items : list Node) : ComboBoxStateProps :=
  {| props_items := items;
     props_selectedKey := None;
     props_defaultSelectedKey := None;
     props_inputValue := None;
     props_defaultInputValue := None;
     props_allowsCustomValue := false;
     props_onInputChange := true;
     props_onSelectionChange := true;
     props_onFilter := false |}.

Definition hooks_of (text : string) : Hooks :=
  {| hook_isFocused := true;
     hook_inputValue := text;
     hook_lastSelectedKeyProp := None;
     hook_lastValue := text |}.

Definition env_of (isOpen : bool) (focusedKey : option Key) : Env :=
  {| triggerState_isOpen := isOpen; selectionManager_focusedKey := focusedKey |}.

Definition fruits : list Node :=
  [item_node (KStr "a") "Apple"; item_node (KStr "b") "Banana"].

(** A section holding Apple and Banana, as objects of a store. *)
Definition fruit_store : Store.store :=
  <[1%positive := {| Store.o_type := section; Store.o_key := KStr "s";
                     Store.o_textValue := ""; Store.o_hasChildNodes := true;
                     Store.o_childNodes := [2%positive; 3%positive] |}]>
  (<[2%positive := {| Store.o_type := item; Store.o_key := KStr "a";
                      Store.o_textValue := "Apple"; Store.o_hasChildNodes := false;
                      Store.o_childNodes := [] |}]>
   (<[3%positive := {| Store.o_type := item; Store.o_key := KStr "b";
                       Store.o_textValue := "Banana"; Store.o_hasChildNodes := false;
                       Store.o_childNodes := [] |}]> ∅)).

(** A predicate on trees and the same predicate on references. *)
Definition is_apple (node : Node) : bool :=
  String.eqb (textValue node) "Apple".

Definition is_apple_ref (σ : Store.store) (l : Store.loc) : bool :=
  match σ !! l with
  | Some o => String.eqb (Store.o_textValue o) "Apple"
  | None => false
  end.

End Sample.

(** ** Notions used in the statements *)

(** Entries that [computeKeyFromValue] passes over: sections, and items
    whose text is not exactly [value]. *)
Definition passed_over (value : string) (entry : Key * Node) : Prop :=
  is_section (snd entry) = true \/ textValue (snd entry) <> value.

(** The text a key resolves to in the unfiltered collection: the text of its
    item, or the empty text. *)
Definition itemText_of (props : ComboBoxStateProps) (key : option Key) : string :=
  match key ≫= getItem (unfilteredCollection props) with
  | Some i => textValue i
  | None => ""
  end.

(** The normalization as the description words it: lower-casing, then
    removing the space character wherever it occurs. *)
Fixpoint remove_spaces (s : string) : string :=
  match s with
  | EmptyString => EmptyString
  | String c s' =>
    if Ascii.eqb c " "%char then remove_spaces s' else String c (remove_spaces s')
  end.

Definition described_normalize (toLowerCase : string -> string) (s : string) : string :=
  remove_spaces (toLowerCase s).

(** The match as the description words it: some slice of the normalized
    text, as long as the normalized query, compares equal to it. *)
Definition described_match
    (collator_compare : string -> string -> Z) (toLowerCase : string -> string)
    (query text : string) : Prop :=
  let q := described_normalize toLowerCase query in
  let t := described_normalize toLowerCase text in
  exists s, s + String.length q <= String.length t /\
            collator_compare q (String.substring s (String.length q) t) = 0%Z.

Fixpoint count_spaces (s : string) : nat :=
  match s with
  | EmptyString => 0
  | String c s' => (if Ascii.eqb c " "%char then 1 else 0) + count_spaces s'
  end.

(** The text is not empty and its prefix of the length of the input compares
    equal to the input. *)
Definition prefix_matches
    (collator_compare : string -> string -> Z)
    (props : ComboBoxStateProps) (rendered : Hooks) (text : string) : Prop :=
  text <> "" /\
  collator_compare (inputValue props rendered)
    (JS.slice text 0 (String.length (inputValue props rendered))) = 0%Z.

(** The focused key is truthy and identifies a node of the filtered
    collection whose text is [text] and matches the input by its prefix. *)
Definition focused_match
    (collator_compare : string -> string -> Z) (toLowerCase : string -> string)
    (props : ComboBoxStateProps) (rendered : Hooks) (env : Env) (text : string) : Prop :=
  exists k node,
    selectionManager_focusedKey env = Some k /\
    JS.truthy_key k = true /\
    getItem (filteredCollection collator_compare toLowerCase props rendered) k = Some node /\
    textValue node = text /\
    prefix_matches collator_compare props rendered text.

(** What [filter] guarantees of a node [n] of its result, the nodes of the
    source along the walk being [sources]: an item satisfies the predicate
    and is a node of the source; a section is flagged as having children,
    has children, and is the copy of a section of the source that carries the
    filtered children of that section. *)
Definition retained (filterFn : Node -> bool) (sources : list Node) (n : Node) : Prop :=
  (is_section n = false -> filterFn n = true /\ In n sources) /\
  (is_section n = true ->
     hasChildNodes n = true /\
     childNodes n <> [] /\
     exists source,
       In source sources /\ is_section source = true /\
       n = with_childNodes source (filter (childNodes source) filterFn)).

(** What a call of [filter] on the references of [nodes] does in a store that
    extends [σ0]: it returns, the store it leaves extends the one it found,
    and its result came about from the filtered trees. *)
Definition call_ok
    (filterFn : Node -> bool) (σ0 : Store.store)
    (call : list Store.loc -> Store.store -> option (list Store.loc * Store.store))
    (nodes : list Node) : Prop :=
  forall ls σ, σ0 ⊆ σ -> Forall2 (Store.repr σ0) ls nodes ->
    exists ls' σ',
      call ls σ = Some (ls', σ') /\
      σ ⊆ σ' /\
      Forall2 (Store.emitted σ0 (dom σ) σ') ls' (filter nodes filterFn).

(** ** Further notions about the tree *)

(** The nodes [filter] can reach: a node, then, for a section flagged as
    having children, the nodes it reaches among the children. *)
Fixpoint reach_node (node : Node) : list Node :=
  node :: (if is_section node && hasChildNodes node
           then flat_map reach_node (childNodes node) else []).

Definition reach (nodes : list Node) : list Node :=
  flat_map reach_node nodes.

(** The items among a list of nodes. *)
Definition items_of (nodes : list Node) : list Node :=
  List.filter (fun node => negb (is_section node)) nodes.

(** ** Further notions about the log *)

Definition is_onSelectionChange_call (c : Call) : bool :=
  match c with
  | onSelectionChange_call _ => true
  | _ => false
  end.

(** The reports of a selection change in a log. *)
Definition selection_calls (log : list Call) : list Call :=
  List.filter is_onSelectionChange_call log.

(** ** [useTooltipTrigger]

    The handlers of the tooltip trigger hook.  They share two arrays of the
    module, [visibleTooltips] and [tooltipStates], among all the triggers of
    a page. *)

Module TooltipTrigger.

(** What the handlers read of the DOM: the parent of the node the pointer
    went to is an element with or without a [role] attribute, or the
    document, which has no [getAttribute]. *)
Inductive ParentNode :=
  | parent_element (role : option string)
  | parent_document.

Record Target := { parentNode : option ParentNode }.

Record NativeEvent := { toElement : option Target }.

Record MouseEvent := {
  relatedTarget : option Target;
  nativeEvent : option NativeEvent
}.

Record KeyboardEvent := {
  event_key : string;
  event_altKey : bool
}.

Record Element := { id : string }.

(** A tooltip state object is known by its identity; [open] is the flag the
    hook reads from it during a render. *)
Record TooltipState := {
  state_ref : nat;
  state_open : bool
}.

Inductive Call :=
  | setOpen_call (state : nat) (isOpen : bool)
  | preventDefault_call
  | stopPropagation_call
  | console_log_call (message : string).

(** The arrays of the module. *)
Record Globals := {
  visibleTooltips : list string;
  tooltipStates : list nat
}.

(** The props of one trigger: [triggerProps.ref] (which may be missing, and
    whose [current] may be null) and [state]. *)
Record Props := {
  triggerProps_ref : option (option Element);
  state : TooltipState
}.

(** A handler runs on the arrays, appends to the log of calls and may
    throw; what it did before throwing stays done. *)
Definition Run (A : Type) : Type := Globals -> Completion A * Globals * list Call.

Definition ret {A} (a : A) : Run A :=
  fun g => (Normal a, g, []).

Definition throw {A} (message : string) : Run A :=
  fun g => (Throw message, g, []).

Definition bind {A B} (c : Run A) (k : A -> Run B) : Run B :=
  fun g =>
    match c g with
    | (Normal a, g1, log1) =>
      let '(r, g2, log2) := k a g1 in (r, g2, log1 ++ log2)
    | (Throw message, g1, log1) => (Throw message, g1, log1)
    end.

Definition call (c : Call) : Run unit :=
  fun g => (Normal tt, g, [c]).

Definition get : Run Globals :=
  fun g => (Normal g, g, []).

Definition put (g : Globals) : Run unit :=
  fun _ => (Normal tt, g, []).

Declare Scope run_scope.
Delimit Scope run_scope with run.
Notation "x <- c ;; k" := (bind c (fun x => k))
  (at level 100, c at next level, right associativity) : run_scope.
Notation "c ;; k" := (bind c (fun _ => k))
  (at level 100, right associativity) : run_scope.

Definition when (b : bool) (c : Run unit) : Run unit :=
  if b then c else ret tt.

(** Reading a property of a value that may be null or undefined. *)
Definition deref {A} (v : option A) : Run A :=
  match v with
  | Some a => ret a
  | None => throw "TypeError"
  end.

(** [tooltipStates.forEach(tooltip => tooltip.setOpen(false))] *)
Fixpoint forEach_setOpen_false (states : list nat) : Run unit :=
  match states with
  | [] => ret tt
  | tooltip :: rest =>
    (call (setOpen_call tooltip false) ;; forEach_setOpen_false rest)%run
  end.

Section Handlers.

Variable props : Props.

Definition onPressInteraction : Run unit :=
  call (setOpen_call (state_ref (state props)) (negb (state_open (state props)))).

Definition onHoverInteraction (isHovering : bool) : Run unit :=
  call (setOpen_call (state_ref (state props)) isHovering).

Definition onClose : Run unit :=
  call (setOpen_call (state_ref (state props)) false).

Definition onKeyDownTrigger (e : KeyboardEvent) : Run unit :=
  when (match triggerProps_ref props with
        | Some (Some _) => true
        | _ => false
        end)
    (when (String.eqb (event_key e) "Escape"
           || event_altKey e && String.eqb (event_key e) "ArrowDown")
       (call preventDefault_call ;;
        call stopPropagation_call ;;
        call (setOpen_call (state_ref (state props)) false))%run).

(** [triggerProps.ref.current.id] *)
Definition ref_current_id : Run string :=
  (ref <- deref (triggerProps_ref props) ;;
   current <- deref ref ;;
   ret (id current))%run.

Definition enter : Run unit :=
  (tooltipBucketItem <- ref_current_id ;;
   g <- get ;;
   put {| visibleTooltips := visibleTooltips g ++ [tooltipBucketItem];
          tooltipStates := tooltipStates g |} ;;
   g <- get ;;
   forEach_setOpen_false (tooltipStates g))%run.

Definition exit (e : MouseEvent) : Run unit :=
  (call (console_log_call "exit function called") ;;
   let hoveringOverTooltip := false in
   related <- match relatedTarget e with
              | Some target => ret (Some target)
              | None => nativeEvent <- deref (nativeEvent e) ;;
                        ret (toElement nativeEvent)
              end ;;
   related <- deref related ;;
   parent <- deref (parentNode related) ;;
   role <- match parent with
           | parent_element role => ret role
           | parent_document => throw "TypeError"
           end ;;
   let hoveringOverTooltip :=
     if bool_decide (role = Some "tooltip") then true else hoveringOverTooltip in
   g <- get ;;
   when ((0 <? length (visibleTooltips g)) && negb hoveringOverTooltip)
     (call (console_log_call "exit function closing the tooltip") ;;
      call (setOpen_call (state_ref (state props)) false)) ;;
   g <- get ;;
   put {| visibleTooltips := removelast (visibleTooltips g);
          tooltipStates := tooltipStates g |})%run.

Definition enterClick : Run unit :=
  (tooltipBucketItem <- ref_current_id ;;
   g <- get ;;
   put {| visibleTooltips := visibleTooltips g ++ [tooltipBucketItem];
          tooltipStates := tooltipStates g |} ;;
   g <- get ;;
   put {| visibleTooltips := visibleTooltips g;
          tooltipStates := tooltipStates g ++ [state_ref (state props)] |} ;;
   g <- get ;;
   when (1 <? length (visibleTooltips g))
     (put {| visibleTooltips := tl (visibleTooltips g);
             tooltipStates := tooltipStates g |}))%run.

End Handlers.

(** What a run leaves behind. *)
Definition outcome {A} (c : Run A) (g : Globals) : Completion A := fst (fst (c g)).
Definition globals_after {A} (c : Run A) (g : Globals) : Globals := snd (fst (c g)).
Definition calls {A} (c : Run A) (g : Globals) : list Call := snd (c g).

(** A trigger whose ref holds an element. *)
Definition mounted (props : Props) (element : Element) : Prop :=
  triggerProps_ref props = Some (Some element).

(** A pointer that leaves to a node below an element with the given role. *)
Definition leaves_to (e : MouseEvent) (role : option string) : Prop :=
  exists target,
    (relatedTarget e = Some target \/
     relatedTarget e = None /\
     exists native, nativeEvent e = Some native /\ toElement native = Some target) /\
    parentNode target = Some (parent_element role).

End TooltipTrigger.

(** The handlers in the object [useTooltipTrigger] returns: of the
    interaction props, of the key-down chain of the base props, of the hover
    trigger props and of the click trigger props. *)
Inductive TooltipHandler :=
  | handle_onPressInteraction
  | handle_onHoverInteraction (isHovering : bool)
  | handle_onKeyDown (e : TooltipTrigger.KeyboardEvent)
  | handle_onMouseEnter
  | handle_onMouseLeave (e : TooltipTrigger.MouseEvent)
  | handle_onMouseDown.

Definition run_handler (props : TooltipTrigger.Props) (h : TooltipHandler)
    : TooltipTrigger.Run unit :=
  match h with
  | handle_onPressInteraction => TooltipTrigger.onPressInteraction props
  | handle_onHoverInteraction isHovering => TooltipTrigger.onHoverInteraction props isHovering
  | handle_onKeyDown e => TooltipTrigger.onKeyDownTrigger props e
  | handle_onMouseEnter => TooltipTrigger.enter props
  | handle_onMouseLeave e => TooltipTrigger.exit props e
  | handle_onMouseDown => TooltipTrigger.enterClick props
  end.

(** * Properties *)

(** Induction over trees, with the hypothesis available for every child. *)
Lemma Node_tree_ind (P : Node -> Prop) :
  (forall ty k tv hc cs, Forall P cs -> P (mkNode ty k tv hc cs)) ->
  forall node, P node.
Proof.
  intros step.
  fix IH 1.
  intros [ty k tv hc cs]. apply step.
  induction cs as [|c cs IHcs]; constructor.
  - apply IH.
  - exact IHcs.
Qed.

(** The loop of [filter] and its body, as the source has them. *)
Lemma filter_nil filterFn : filter [] filterFn = [].
Proof. reflexivity. Qed.

Lemma filter_cons node nodes filterFn :
  filter (node :: nodes) filterFn =
    (if is_section node && hasChildNodes node then
       let filtered := filter (childNodes node) filterFn in
       if 0 <? length filtered then [with_childNodes node filtered] else []
     else if negb (is_section node) && filterFn node then [node]
     else []) ++ filter nodes filterFn.
Proof. destruct node; reflexivity. Qed.

Lemma filter_app nodes1 nodes2 filterFn :
  filter (nodes1 ++ nodes2) filterFn = filter nodes1 filterFn ++ filter nodes2 filterFn.
Proof. unfold filter. apply flat_map_app. Qed.

(** ** The value and selection synchronizer *)

Lemma computeKeyFromValue_loop_None value entries :
  computeKeyFromValue_loop value entries = None <->
  Forall (passed_over value) entries.
Proof.
  induction entries as [|[k node] rest IH]; simpl.
  - split; [constructor | reflexivity].
  - destruct (is_section node) eqn:Hsec; simpl.
    + rewrite IH. split.
      * intros H. constructor; [left; exact Hsec | exact H].
      * intros H. inversion H; assumption.
    + destruct (String.eqb_spec (textValue node) value) as [Heq|Hne].
      * split; [discriminate|].
        intros H. inversion H as [|? ? [Hs|Ht] _]; simpl in *; congruence.
      * rewrite IH. split.
        -- intros H. constructor; [right; exact Hne | exact H].
        -- intros H. inversion H; assumption.
Qed.

Lemma computeKeyFromValue_loop_Some value entries k :
  computeKeyFromValue_loop value entries = Some k <->
  exists pre node post,
    entries = pre ++ (k, node) :: post /\
    is_section node = false /\
    textValue node = value /\
    Forall (passed_over value) pre.
Proof.
  induction entries as [|[k' node'] rest IH]; simpl.
  - split; [discriminate|].
    intros (pre & node & post & Heq & _). destruct pre; discriminate.
  - destruct (is_section node') eqn:Hsec; simpl.
    + rewrite IH. split.
      * intros (pre & node & post & -> & Hs & Ht & Hpre).
        exists ((k', node') :: pre), node, post.
        repeat split; try assumption. constructor; [left; exact Hsec | exact Hpre].
      * intros (pre & node & post & Heq & Hs & Ht & Hpre).
        destruct pre as [|e pre]; simpl in Heq; inversion Heq; subst.
        -- congruence.
        -- exists pre, node, post. inversion Hpre; subst. repeat split; assumption.
    + destruct (String.eqb_spec (textValue node') value) as [Hv|Hne].
      * split.
        -- intros [= <-]. exists [], node', rest. repeat split; try assumption. constructor.
        -- intros (pre & node & post & Heq & Hs & Ht & Hpre).
           destruct pre as [|e pre]; simpl in Heq; inversion Heq; subst.
           ++ reflexivity.
           ++ inversion Hpre as [|? ? [H1|H2] _]; simpl in *; congruence.
      * rewrite IH. split.
        -- intros (pre & node & post & -> & Hs & Ht & Hpre).
           exists ((k', node') :: pre), node, post.
           repeat split; try assumption. constructor; [right; exact Hne | exact Hpre].
        -- intros (pre & node & post & Heq & Hs & Ht & Hpre).
           destruct pre as [|e pre]; simpl in Heq; inversion Heq; subst.
           ++ congruence.
           ++ exists pre, node, post. inversion Hpre; subst. repeat split; assumption.
Qed.

Lemma truthy_string_true (s : string) : JS.truthy_string s = true <-> s <> "".
Proof.
  unfold JS.truthy_string. destruct (String.eqb_spec s ""); simpl; split; congruence.
Qed.

Lemma truthy_string_false (s : string) : JS.truthy_string s = false <-> s = "".
Proof.
  unfold JS.truthy_string. destruct (String.eqb_spec s ""); simpl; split; congruence.
Qed.

(** *** Equations of the handlers *)

Section ActLaws.

Context {A B : Type}.

Lemma log_of_bind (c : Act A) (k : A -> Act B) hooks :
  log_of (bind c k) hooks =
  log_of c hooks ++ log_of (k (result_of c hooks)) (cells_after c hooks).
Proof.
  unfold log_of, cells_after, result_of, bind.
  destruct (c hooks) as [[a h1] l1]; simpl.
  destruct (k a h1) as [[b h2] l2]; reflexivity.
Qed.

Lemma cells_after_bind (c : Act A) (k : A -> Act B) hooks :
  cells_after (bind c k) hooks =
  cells_after (k (result_of c hooks)) (cells_after c hooks).
Proof.
  unfold log_of, cells_after, result_of, bind.
  destruct (c hooks) as [[a h1] l1]; simpl.
  destruct (k a h1) as [[b h2] l2]; reflexivity.
Qed.

Lemma result_of_bind (c : Act A) (k : A -> Act B) hooks :
  result_of (bind c k) hooks =
  result_of (k (result_of c hooks)) (cells_after c hooks).
Proof.
  unfold log_of, cells_after, result_of, bind.
  destruct (c hooks) as [[a h1] l1]; simpl.
  destruct (k a h1) as [[b h2] l2]; reflexivity.
Qed.

End ActLaws.

Lemma log_of_when (b : bool) (c : Act unit) hooks :
  log_of (when b c) hooks = if b then log_of c hooks else [].
Proof. destruct b; reflexivity. Qed.

Lemma cells_after_when (b : bool) (c : Act unit) hooks :
  cells_after (when b c) hooks = if b then cells_after c hooks else hooks.
Proof. destruct b; reflexivity. Qed.

Lemma log_of_call (c : Call) hooks : log_of (call c) hooks = [c].
Proof. reflexivity. Qed.

Lemma cells_after_call (c : Call) hooks : cells_after (call c) hooks = hooks.
Proof. reflexivity. Qed.

Lemma log_of_ret {A} (a : A) hooks : log_of (ret a) hooks = [].
Proof. reflexivity. Qed.

Lemma cells_after_ret {A} (a : A) hooks : cells_after (ret a) hooks = hooks.
Proof. reflexivity. Qed.

Lemma log_of_get hooks : log_of get hooks = [].
Proof. reflexivity. Qed.

Lemma cells_after_get hooks : cells_after get hooks = hooks.
Proof. reflexivity. Qed.

Lemma result_of_get hooks : result_of get hooks = hooks.
Proof. reflexivity. Qed.

Lemma log_of_put hooks' hooks : log_of (put hooks') hooks = [].
Proof. reflexivity. Qed.

Lemma cells_after_put hooks' hooks : cells_after (put hooks') hooks = hooks'.
Proof. reflexivity. Qed.

Create Rewrite HintDb act.
#[local] Hint Rewrite
  @log_of_bind @cells_after_bind @result_of_bind
  log_of_when cells_after_when log_of_call cells_after_call
  @log_of_ret @cells_after_ret log_of_get cells_after_get result_of_get
  log_of_put cells_after_put app_nil_r : act.

Section HandlerLaws.

Variable props : ComboBoxStateProps.
Variable rendered : Hooks.

Lemma onInputChange_cells value hooks :
  cells_after (onInputChange props rendered value) hooks = hooks.
Proof.
  unfold onInputChange. autorewrite with act.
  repeat match goal with |- context [if ?b then _ else _] => destruct b end;
    reflexivity.
Qed.

Lemma onInputChange_log value hooks :
  log_of (onInputChange props rendered value) hooks =
  (if props_onInputChange props then [props_onInputChange_call value] else []) ++
  (if negb (bool_decide (computeKeyFromValue value (unfilteredCollection props)
                         = selectedKey props rendered))
      && props_onSelectionChange props
   then [onSelectionChange_call (computeKeyFromValue value (unfilteredCollection props))]
   else []).
Proof.
  unfold onInputChange. autorewrite with act.
  destruct (props_onInputChange props), (props_onSelectionChange props),
    (bool_decide _); reflexivity.
Qed.

Lemma setInputValue_cells value hooks :
  cells_after (setInputValue props rendered value) hooks =
  match props_inputValue props with
  | Some _ => hooks
  | None =>
    {| hook_isFocused := hook_isFocused hooks;
       hook_inputValue := value;
       hook_lastSelectedKeyProp := hook_lastSelectedKeyProp hooks;
       hook_lastValue := hook_lastValue hooks |}
  end.
Proof.
  unfold setInputValue, useControlledState_setValue, toString.
  autorewrite with act. rewrite onInputChange_cells.
  destruct (props_inputValue props); autorewrite with act;
    repeat match goal with |- context [if ?b then _ else _] => destruct b end;
    reflexivity.
Qed.

Lemma setInputValue_log value hooks :
  log_of (setInputValue props rendered value) hooks =
  setInputValue_call value ::
  (if negb (String.eqb (useControlledState_value (props_inputValue props) hooks) value)
   then log_of (onInputChange props rendered value) hooks
   else []).
Proof.
  unfold setInputValue, useControlledState_setValue, toString.
  autorewrite with act. simpl. f_equal.
  destruct (props_inputValue props); autorewrite with act; reflexivity.
Qed.

Lemma setSelectedKey_cells key hooks :
  cells_after (setSelectedKey props rendered key) hooks =
  if JS.truthy_string (itemText_of props key)
  then cells_after (setInputValue props rendered (itemText_of props key)) hooks
  else hooks.
Proof.
  unfold setSelectedKey. fold (itemText_of props key). autorewrite with act.
  repeat match goal with |- context [if ?b then _ else _] => destruct b end;
    reflexivity.
Qed.

Lemma setSelectedKey_log key hooks :
  log_of (setSelectedKey props rendered key) hooks =
  (if JS.truthy_string (itemText_of props key)
   then log_of (setInputValue props rendered (itemText_of props key)) hooks
   else []) ++
  (if String.eqb (itemText_of props key) (inputValue props rendered)
      && negb (bool_decide (selectedKey props rendered = key))
      && props_onSelectionChange props
   then [onSelectionChange_call key]
   else []).
Proof.
  unfold setSelectedKey. fold (itemText_of props key). autorewrite with act.
  f_equal.
  destruct (String.eqb _ _), (props_onSelectionChange props), (bool_decide _);
    reflexivity.
Qed.

End HandlerLaws.

(** C1.  A change of the input text resolves the new selected key by exact
    equality of the text with the [textValue] of the non-section nodes of
    the unfiltered collection: the key found is the one of the first such
    entry, no key is found exactly when no item has that text, and (the
    selection callback being supplied) the selection change is reported if
    and only if the key found differs from the current selected key, with
    the key found as its argument.  Setting a text that differs from the
    current input value runs exactly this handler. *)
Theorem onInputChange_resolves_by_exact_text
    (props : ComboBoxStateProps) (rendered hooks : Hooks) (value : string) :
  props_onSelectionChange props = true ->
  let newSelectedKey := computeKeyFromValue value (unfilteredCollection props) in
  (forall k, newSelectedKey = Some k <->
     exists pre node post,
       keyMap (unfilteredCollection props) = pre ++ (k, node) :: post /\
       is_section node = false /\
       textValue node = value /\
       Forall (passed_over value) pre) /\
  (newSelectedKey = None <->
     forall k node, In (k, node) (keyMap (unfilteredCollection props)) ->
       is_section node = false -> textValue node <> value) /\
  (forall k', In (onSelectionChange_call k')
                (log_of (onInputChange props rendered value) hooks) <->
     k' = newSelectedKey /\ newSelectedKey <> selectedKey props rendered) /\
  (useControlledState_value (props_inputValue props) hooks <> value ->
   log_of (setInputValue props rendered value) hooks =
     setInputValue_call value :: log_of (onInputChange props rendered value) hooks).
Proof.
  intros Hcb newSelectedKey. split; [|split; [|split]]; cycle 3.
  { intros Hne. rewrite setInputValue_log.
    destruct (String.eqb_spec (useControlledState_value (props_inputValue props) hooks) value);
      [contradiction | reflexivity]. }
  - intros k. apply computeKeyFromValue_loop_Some.
  - unfold newSelectedKey, computeKeyFromValue.
    rewrite computeKeyFromValue_loop_None, Forall_forall. split.
    + intros H k node Hin Hsec Htext.
      apply list_elem_of_In in Hin.
      destruct (H _ Hin) as [Hs|Ht]; simpl in *; congruence.
    + intros H [k node] Hin. apply list_elem_of_In in Hin. unfold passed_over; simpl.
      destruct (is_section node) eqn:Hsec; [left; reflexivity|].
      right. eapply H; eassumption.
  - intros k'. unfold onInputChange, log_of, bind, when, call, ret.
    rewrite Hcb. fold newSelectedKey.
    destruct (props_onInputChange props); simpl;
      destruct (bool_decide_reflect (newSelectedKey = selectedKey props rendered))
        as [Heq|Hne]; simpl.
    + split; [intros [H|[]]; discriminate | intros [_ H]; contradiction].
    + split.
      * intros [H|[H|[]]]; [discriminate|]. inversion H. split; [reflexivity|assumption].
      * intros [-> _]. right. left. reflexivity.
    + split; [intros [] | intros [_ H]; contradiction].
    + split.
      * intros [H|[]]. inversion H. split; [reflexivity|assumption].
      * intros [-> _]. left. reflexivity.
Qed.

(** An instance of C1: typing "Applz" over Apple and Banana, with Apple
    selected, finds no key and reports the cleared selection. *)
Lemma onInputChange_resolves_by_exact_text_witness :
  computeKeyFromValue "Applz" (unfilteredCollection (Sample.props_of Sample.fruits)) = None /\
  In (onSelectionChange_call None)
     (log_of (onInputChange (Sample.props_of Sample.fruits) (Sample.hooks_of "Apple") "Applz")
             (Sample.hooks_of "Apple")).
Proof.
  pose proof (onInputChange_resolves_by_exact_text
                (Sample.props_of Sample.fruits)
                (Sample.hooks_of "Apple") (Sample.hooks_of "Apple") "Applz"
                eq_refl) as (_ & _ & H & _).
  split; [reflexivity|].
  apply H. split; [reflexivity | discriminate].
Defined.

(** C2.  [setSelectedKey(k)] for an item of the unfiltered collection with a
    non-empty text invokes the setter of the input value with that text, so
    that an uncontrolled input value becomes the text and the owner of a
    controlled one is asked for it; and when the text is the current input
    text while [k] is not the current selected key, the selection change is
    still reported with [k] (the selection callback being supplied). *)
Theorem setSelectedKey_writes_item_text
    (props : ComboBoxStateProps) (rendered hooks : Hooks) (k : Key) (node : Node) :
  getItem (unfilteredCollection props) k = Some node ->
  textValue node <> "" ->
  let run := setSelectedKey props rendered (Some k) in
  (exists rest, log_of run hooks = setInputValue_call (textValue node) :: rest) /\
  (props_inputValue props = None ->
     hook_inputValue (cells_after run hooks) = textValue node) /\
  (forall v, props_inputValue props = Some v -> v <> textValue node ->
     props_onInputChange props = true ->
     In (props_onInputChange_call (textValue node)) (log_of run hooks)) /\
  (props_onSelectionChange props = true ->
     textValue node = inputValue props rendered ->
     selectedKey props rendered <> Some k ->
     In (onSelectionChange_call (Some k)) (log_of run hooks)).
Proof.
  intros Hget Htext run. subst run.
  assert (Hitem : itemText_of props (Some k) = textValue node).
  { unfold itemText_of. simpl. rewrite Hget. reflexivity. }
  apply truthy_string_true in Htext.
  rewrite setSelectedKey_log, setSelectedKey_cells, Hitem, Htext.
  rewrite setInputValue_log, setInputValue_cells.
  repeat split.
  - eexists. reflexivity.
  - intros ->. reflexivity.
  - intros v Hc Hne Hcb. rewrite Hc. simpl.
    destruct (String.eqb_spec v (textValue node)) as [|_]; [contradiction|]. simpl.
    rewrite onInputChange_log, Hcb. right. left. reflexivity.
  - intros Hcb Hsame Hkey.
    rewrite <- Hsame, String.eqb_refl, Hcb.
    rewrite bool_decide_eq_false_2 by exact Hkey. simpl.
    right. apply in_or_app. right. left. reflexivity.
Qed.

(** An instance of C2: with two items that read "Apple" and the first one
    selected, selecting the second writes "Apple" and reports its key. *)
Lemma setSelectedKey_writes_item_text_witness :
  let props := Sample.props_of
                 [Sample.item_node (KStr "a") "Apple"; Sample.item_node (KStr "c") "Apple"] in
  let hooks := Sample.hooks_of "Apple" in
  hook_inputValue (cells_after (setSelectedKey props hooks (Some (KStr "c"))) hooks) = "Apple" /\
  In (onSelectionChange_call (Some (KStr "c")))
     (log_of (setSelectedKey props hooks (Some (KStr "c"))) hooks).
Proof.
  intros props hooks.
  destruct (setSelectedKey_writes_item_text props hooks hooks (KStr "c")
              (Sample.item_node (KStr "c") "Apple") eq_refl ltac:(discriminate))
    as (_ & Hcell & _ & Hsel).
  split.
  - apply Hcell. reflexivity.
  - apply Hsel; [reflexivity | reflexivity | discriminate].
Defined.

(** C8, as stated, fails: with "App" typed over Apple and Banana,
    [setSelectedKey] of a key that is in no entry leaves the input value at
    "App" and makes no call at all. *)
Lemma setSelectedKey_absent_key_keeps_text :
  let props := Sample.props_of Sample.fruits in
  let hooks := Sample.hooks_of "App" in
  let run := setSelectedKey props hooks (Some (KStr "zzz")) in
  getItem (unfilteredCollection props) (KStr "zzz") = None /\
  hook_inputValue (cells_after run hooks) = "App" /\
  hook_inputValue (cells_after run hooks) <> "" /\
  log_of run hooks = [].
Proof. repeat split; discriminate. Qed.

(** C8, amended.  [setSelectedKey(k)] for a key (or no key) that is not in
    the unfiltered collection does not throw: the item text resolves to the
    empty text, the setter of the input value is not invoked and the cells
    are left as they are; the only call it can make is the report of the
    selection change with [k], made exactly when the current input text is
    empty, [k] is not the current selected key and the callback is supplied. *)
Theorem setSelectedKey_absent_key
    (props : ComboBoxStateProps) (rendered hooks : Hooks) (key : option Key) :
  key ≫= getItem (unfilteredCollection props) = None ->
  let run := setSelectedKey props rendered key in
  itemText_of props key = "" /\
  cells_after run hooks = hooks /\
  (forall v, ~ In (setInputValue_call v) (log_of run hooks)) /\
  log_of run hooks =
    (if String.eqb (inputValue props rendered) ""
        && negb (bool_decide (selectedKey props rendered = key))
        && props_onSelectionChange props
     then [onSelectionChange_call key] else []).
Proof.
  intros Habsent run. subst run.
  assert (Hitem : itemText_of props key = "").
  { unfold itemText_of. rewrite Habsent. reflexivity. }
  rewrite setSelectedKey_log, setSelectedKey_cells, Hitem.
  rewrite (String.eqb_sym "" (inputValue props rendered)).
  change (JS.truthy_string "") with false. cbv iota. rewrite app_nil_l.
  repeat split.
  intros v.
  destruct (_ && _ && _); simpl; [intros [H|[]]; discriminate | tauto].
Qed.

(** An instance of C8, amended: the stale key over the text "App". *)
Lemma setSelectedKey_absent_key_witness :
  cells_after (setSelectedKey (Sample.props_of Sample.fruits) (Sample.hooks_of "App")
                 (Some (KStr "zzz"))) (Sample.hooks_of "App")
  = Sample.hooks_of "App".
Proof.
  exact (proj1 (proj2 (setSelectedKey_absent_key
                         (Sample.props_of Sample.fruits) (Sample.hooks_of "App")
                         (Sample.hooks_of "App") (Some (KStr "zzz")) eq_refl))).
Defined.

(** ** The check at construction *)




(** ** The trigger gate *)






(** ** The default filter predicate *)

Section DefaultFilterFacts.

Variable collator_compare : string -> string -> Z.
Variable toLowerCase : string -> string.
Variable props : ComboBoxStateProps.
Variable rendered : Hooks.

Local Abbreviation loop := (defaultFilterFn_loop collator_compare toLowerCase props rendered).
Local Abbreviation query := (lowercaseValue toLowerCase props rendered).

Lemma slice_substring (s : string) (scan sliceLen : nat) :
  JS.slice s scan (scan + sliceLen) = String.substring scan sliceLen s.
Proof. unfold JS.slice. f_equal. lia. Qed.

Lemma defaultFilterFn_loop_found fuel text sliceLen scan :
  loop fuel text sliceLen scan true = true.
Proof.
  destruct fuel; simpl; [reflexivity|].
  rewrite andb_false_r. reflexivity.
Qed.

(** The loop finds a position exactly when one of the positions it can
    still reach holds a slice that compares equal to the query. *)
Lemma defaultFilterFn_loop_spec fuel text sliceLen scan :
  loop fuel text sliceLen scan false = true <->
  exists s, scan <= s < scan + fuel /\
            s + sliceLen <= String.length text /\
            collator_compare query (String.substring s sliceLen text) = 0%Z.
Proof.
  revert scan. induction fuel as [|fuel IH]; intros scan; simpl.
  - split; [discriminate|]. intros (s & Hs & _). lia.
  - destruct (Nat.leb_spec (scan + sliceLen) (String.length text)) as [Hle|Hgt]; simpl.
    + rewrite slice_substring.
      destruct (Z.eqb_spec
                  (collator_compare query (String.substring scan sliceLen text)) 0)
        as [Heq|Hne].
      * rewrite defaultFilterFn_loop_found. split; [|reflexivity].
        intros _. exists scan. repeat split; (lia || assumption).
      * rewrite IH. split.
        -- intros (s & Hs & Hlen & Hcmp). exists s. repeat split; (lia || assumption).
        -- intros (s & Hs & Hlen & Hcmp).
           destruct (Nat.eq_dec s scan) as [->|Hneq]; [contradiction|].
           exists s. repeat split; (lia || assumption).
    + split; [discriminate|]. intros (s & Hs & Hlen & _). lia.
Qed.

(** [defaultFilterFn] matches exactly when some slice of the normalized
    text, as long as the normalized query, compares equal to it; the
    normalization being [toLowerCase] followed by [replace(' ', '')]. *)
Lemma defaultFilterFn_scan node :
  defaultFilterFn collator_compare toLowerCase props rendered node = true <->
  exists s,
    s + String.length query
      <= String.length (JS.replace " " "" (toLowerCase (textValue node))) /\
    collator_compare query
      (String.substring s (String.length query)
         (JS.replace " " "" (toLowerCase (textValue node)))) = 0%Z.
Proof.
  unfold defaultFilterFn. rewrite defaultFilterFn_loop_spec. split.
  - intros (s & _ & Hlen & Hcmp). exists s. split; assumption.
  - intros (s & Hlen & Hcmp). exists s. repeat split; (lia || assumption).
Qed.

End DefaultFilterFacts.

Lemma substring_all (s : string) (n : nat) :
  String.length s <= n -> String.substring 0 n s = s.
Proof.
  revert n. induction s as [|c s IH]; intros n Hn; simpl in *.
  - destruct n; reflexivity.
  - destruct n; [lia|]. simpl. f_equal. apply IH. lia.
Qed.

Lemma replace_space_cons (c : ascii) (s : string) :
  JS.replace " " "" (String c s) =
  if Ascii.eqb c " "%char then s else String c (JS.replace " " "" s).
Proof.
  cbn [JS.replace String.prefix].
  destruct (ascii_dec " " c) as [<-|Hne].
  - change (String.prefix "" s) with (String.prefix EmptyString s).
    replace (String.prefix EmptyString s) with true by (destruct s; reflexivity).
    simpl. apply substring_all. lia.
  - destruct (Ascii.eqb_spec c " "%char) as [->|_]; [contradiction|reflexivity].
Qed.

Lemma remove_spaces_none (s : string) :
  count_spaces s = 0 -> remove_spaces s = s.
Proof.
  induction s as [|c s IH]; simpl; [reflexivity|].
  destruct (Ascii.eqb c " "%char); simpl; [discriminate|].
  intros H. rewrite IH by assumption. reflexivity.
Qed.

(** On a text with at most one space, [replace(' ', '')] removes the spaces. *)
Lemma replace_space_at_most_one (s : string) :
  count_spaces s <= 1 -> JS.replace " " "" s = remove_spaces s.
Proof.
  induction s as [|c s IH]; [reflexivity|].
  rewrite replace_space_cons. simpl.
  destruct (Ascii.eqb c " "%char); simpl; intros H.
  - symmetry. apply remove_spaces_none. lia.
  - rewrite IH by assumption. reflexivity.
Qed.

(** C5 at the text "a b c" and the query "abc" (with lower-casing of A to Z
    and a collator on code units): [replace(' ', '')] takes out the first
    space only, the normalized text is "ab c", and the predicate does not
    match, while with every space removed the text is "abc" and the query
    matches it as the description has it. *)
Theorem defaultFilterFn_removes_first_space_only :
  let node := Sample.item_node (KStr "x") "a b c" in
  let props := Sample.props_of [node] in
  let hooks := Sample.hooks_of "abc" in
  JS.replace " " "" (Sample.toLowerCase (textValue node)) = "ab c" /\
  described_normalize Sample.toLowerCase (textValue node) = "abc" /\
  defaultFilterFn Sample.compare Sample.toLowerCase props hooks node = false /\
  described_match Sample.compare Sample.toLowerCase "abc" (textValue node).
Proof.
  repeat split. exists 0. split; [simpl; lia | reflexivity].
Qed.

(** Where neither the lower-cased text nor the lower-cased input has more than
    one space, the predicate is the match of the description. *)
Lemma defaultFilterFn_agrees_up_to_one_space
    (collator_compare : string -> string -> Z) (toLowerCase : string -> string)
    (props : ComboBoxStateProps) (rendered : Hooks) (node : Node) :
  count_spaces (toLowerCase (inputValue props rendered)) <= 1 ->
  count_spaces (toLowerCase (textValue node)) <= 1 ->
  defaultFilterFn collator_compare toLowerCase props rendered node = true <->
  described_match collator_compare toLowerCase (inputValue props rendered) (textValue node).
Proof.
  intros Hq Ht. rewrite defaultFilterFn_scan.
  unfold described_match, described_normalize, lowercaseValue.
  rewrite !replace_space_at_most_one by assumption. reflexivity.
Qed.

(** ** The suggestion matcher *)

Section SuggestionFacts.

Variable collator_compare : string -> string -> Z.
Variable toLowerCase : string -> string.
Variable props : ComboBoxStateProps.
Variable rendered : Hooks.

Local Abbreviation matches := (prefix_matches collator_compare props rendered).

Lemma suggestedValue_loop_None values :
  suggestedValue_loop collator_compare props rendered
    (String.length (inputValue props rendered)) values None = None <->
  Forall (fun u => ~ matches u) values.
Proof.
  induction values as [|value rest IH]; simpl.
  - split; [constructor | reflexivity].
  - destruct (JS.truthy_string value) eqn:Ht.
    + apply truthy_string_true in Ht.
      destruct (Z.eqb_spec (collator_compare (inputValue props rendered)
                  (JS.slice value 0 (String.length (inputValue props rendered)))) 0)
        as [Heq|Hne].
      * split; [discriminate|]. intros H. inversion H as [|? ? Hn _].
        exfalso. apply Hn. split; assumption.
      * rewrite IH. split.
        -- intros H. constructor; [|exact H]. intros [_ Hc]. contradiction.
        -- intros H. inversion H; assumption.
    + apply truthy_string_false in Ht. rewrite IH. split.
      * intros H. constructor; [|exact H]. intros [Hn _]. contradiction.
      * intros H. inversion H; assumption.
Qed.

Lemma suggestedValue_loop_Some values v :
  suggestedValue_loop collator_compare props rendered
    (String.length (inputValue props rendered)) values None = Some v <->
  exists pre post,
    values = pre ++ v :: post /\
    matches v /\
    Forall (fun u => ~ matches u) pre.
Proof.
  induction values as [|value rest IH]; simpl.
  - split; [discriminate|]. intros (pre & post & Heq & _). destruct pre; discriminate.
  - assert (Hskip : ~ matches value ->
              (suggestedValue_loop collator_compare props rendered
                 (String.length (inputValue props rendered)) rest None = Some v <->
               exists pre post, value :: rest = pre ++ v :: post /\
                 matches v /\ Forall (fun u => ~ matches u) pre)).
    { intros Hno. rewrite IH. split.
      - intros (pre & post & -> & Hv & Hpre).
        exists (value :: pre), post. repeat split; try apply Hv.
        constructor; assumption.
      - intros (pre & post & Heq & Hv & Hpre).
        destruct pre as [|u pre]; simpl in Heq; inversion Heq; subst.
        + contradiction.
        + exists pre, post. inversion Hpre; subst. repeat split; try apply Hv.
          assumption. }
    destruct (JS.truthy_string value) eqn:Ht.
    + apply truthy_string_true in Ht.
      destruct (Z.eqb_spec (collator_compare (inputValue props rendered)
                  (JS.slice value 0 (String.length (inputValue props rendered)))) 0)
        as [Heq|Hne].
      * split.
        -- intros [= <-]. exists [], rest. repeat split; try assumption. constructor.
        -- intros (pre & post & Hdec & Hv & Hpre).
           destruct pre as [|u pre]; simpl in Hdec; inversion Hdec; subst.
           ++ reflexivity.
           ++ inversion Hpre as [|? ? Hn _]. exfalso. apply Hn. split; assumption.
      * apply Hskip. intros [_ Hc]. contradiction.
    + apply truthy_string_false in Ht. apply Hskip. intros [Hn _]. contradiction.
Qed.

End SuggestionFacts.

Lemma slice_prefix_nonempty (text : string) (n : nat) :
  JS.slice text 0 n <> "" <-> text <> "" /\ 0 < n.
Proof.
  unfold JS.slice. rewrite Nat.sub_0_r.
  destruct text as [|c text], n as [|n]; simpl; split;
    try (intros [? ?]); try congruence; try lia; try (split; [congruence|lia]).
Qed.

Lemma length_zero_empty (s : string) : String.length s = 0 <-> s = "".
Proof. destruct s; simpl; split; congruence. Qed.

(** C7 at the focused key 0.  With the input "It" and the items "ItemOne"
    and "Item One", the focus is on "Item One" and its text matches the input
    by its prefix, so it is to be the suggestion; when its key is the number
    1 it is, but when its key is the number 0 the test [if (focusedKey)]
    takes the focus for absent and the suggestion is "ItemOne", the first
    item of the list. *)
Theorem suggestedValue_skips_falsy_focusedKey :
  let items_with := fun k =>
    [Sample.item_node (KStr "x") "ItemOne"; Sample.item_node k "Item One"] in
  let hooks := Sample.hooks_of "It" in
  let suggestion := fun k =>
    suggestedValue Sample.compare Sample.toLowerCase
      (Sample.props_of (items_with k)) hooks (Sample.env_of true (Some k)) in
  let focusedText := fun k =>
    textValue <$>
      getItem (filteredCollection Sample.compare Sample.toLowerCase
                 (Sample.props_of (items_with k)) hooks) k in
  focusedText (KNum 0) = Some "Item One" /\
  focusedText (KNum 1) = Some "Item One" /\
  Sample.compare "It" (JS.slice "Item One" 0 (String.length "It")) = 0%Z /\
  suggestion (KNum 1) = Some "Item One" /\
  suggestion (KNum 0) = Some "ItemOne" /\
  suggestion (KNum 0) <> Some "Item One".
Proof.
  repeat split. discriminate.
Qed.

(** What [suggestedValue] computes, case by case.  The suggestion is
    undefined when the input is empty or custom values are allowed.
    Otherwise, if the focused key passes the test [if (focusedKey)] (it is
    set, and is neither [''] nor [0]) and identifies a node of the filtered
    collection with a non-empty text whose prefix of the length of the input
    compares equal to the input under the collator, that text is the
    suggestion.  Otherwise the scan over the texts the filtered collection
    iterates over gives the first non-empty text whose prefix of that length
    matches, and nothing when none matches. *)
Lemma suggestedValue_prefers_focused_then_first
    (collator_compare : string -> string -> Z) (toLowerCase : string -> string)
    (props : ComboBoxStateProps) (rendered : Hooks) (env : Env) :
  let input := inputValue props rendered in
  let items := iterable (filteredCollection collator_compare toLowerCase props rendered) in
  let suggestion := suggestedValue collator_compare toLowerCase props rendered env in
  let matches := prefix_matches collator_compare props rendered in
  (input = "" \/ props_allowsCustomValue props = true -> suggestion = None) /\
  (input <> "" -> props_allowsCustomValue props = false ->
   (forall text,
      focused_match collator_compare toLowerCase props rendered env text ->
      suggestion = Some text) /\
   ((forall text, ~ focused_match collator_compare toLowerCase props rendered env text) ->
    Forall (fun node => is_section node = false) items ->
    (forall v, suggestion = Some v <->
       exists pre post,
         map textValue items = pre ++ v :: post /\
         matches v /\
         Forall (fun u => ~ matches u) pre) /\
    (suggestion = None <-> Forall (fun u => ~ matches u) (map textValue items)))).
Proof.
  intros input items suggestion matches.
  subst suggestion. unfold suggestedValue. fold input. split.
  - intros [Hempty | Hcustom].
    + rewrite Hempty. reflexivity.
    + rewrite Hcustom, andb_false_r. reflexivity.
  - intros Hinput Hcustom. rewrite Hcustom.
    assert (Hlen : 0 < String.length input).
    { destruct (String.length input) eqn:E; [|lia].
      apply length_zero_empty in E. contradiction. }
    apply Nat.ltb_lt in Hlen as Hlen'. rewrite Hlen'. cbn [andb negb].
    split.
    + intros text (k & node & Hkey & Htruthy & Hget & <- & Hne & Hcmp).
      rewrite Hkey. cbn [JS.truthy mbind option_bind]. rewrite Htruthy, Hget.
      cbn [fmap option_fmap option_map JS.truthy default].
      fold input in Hcmp.
      assert (Hslice : JS.truthy_string (JS.slice (textValue node) 0 (String.length input))
                       = true).
      { apply truthy_string_true, slice_prefix_nonempty. split; assumption. }
      unfold id. rewrite Hslice, Hcmp. cbn [andb Z.eqb JS.truthy].
      apply truthy_string_true in Hne. rewrite Hne. reflexivity.
    + intros Hnone _.
      assert (Hmatch :
        (if JS.truthy JS.truthy_key (selectionManager_focusedKey env)
         then
           if JS.truthy JS.truthy_string
                ((fun text => JS.slice text 0 (String.length input)) <$>
                 (textValue <$>
                  (selectionManager_focusedKey env ≫=
                   getItem (filteredCollection collator_compare toLowerCase props rendered))))
              && (collator_compare input
                    (default ""
                       ((fun text => JS.slice text 0 (String.length input)) <$>
                        (textValue <$>
                         (selectionManager_focusedKey env ≫=
                          getItem (filteredCollection collator_compare toLowerCase
                                     props rendered))))) =? 0)%Z
           then textValue <$>
                (selectionManager_focusedKey env ≫=
                 getItem (filteredCollection collator_compare toLowerCase props rendered))
           else None
         else None) = None).
      { destruct (selectionManager_focusedKey env) as [k|] eqn:Hkey; [|reflexivity].
        cbn [JS.truthy mbind option_bind].
        destruct (JS.truthy_key k) eqn:Htruthy; [|reflexivity].
        destruct (getItem _ k) as [node|] eqn:Hget; [|reflexivity].
        cbn [fmap option_fmap option_map JS.truthy default]. unfold id.
        destruct (JS.truthy_string _) eqn:Hslice; [|reflexivity].
        destruct (Z.eqb_spec (collator_compare input
                    (JS.slice (textValue node) 0 (String.length input))) 0)
          as [Hcmp|Hcmp]; [|reflexivity].
        exfalso. apply (Hnone (textValue node)).
        exists k, node. repeat split; try assumption.
        apply truthy_string_true, slice_prefix_nonempty in Hslice. apply Hslice. }
      rewrite Hmatch. cbn [JS.truthy negb]. unfold filteredTextValues.
      split.
      * intros v. apply suggestedValue_loop_Some.
      * apply suggestedValue_loop_None.
Qed.

(** An instance: with the input "It" over "Item One" and
    "ItemOne", the focus on "ItemOne" makes it the suggestion. *)
Lemma suggestedValue_prefers_focused_then_first_witness :
  let props :=
    Sample.props_of
      [Sample.item_node (KStr "x") "Item One"; Sample.item_node (KStr "y") "ItemOne"] in
  suggestedValue Sample.compare Sample.toLowerCase props (Sample.hooks_of "It")
    (Sample.env_of true (Some (KStr "y"))) = Some "ItemOne".
Proof.
  intros props.
  refine (proj1 (proj2 (suggestedValue_prefers_focused_then_first
                          Sample.compare Sample.toLowerCase props (Sample.hooks_of "It")
                          (Sample.env_of true (Some (KStr "y"))))
                   ltac:(discriminate) eq_refl) "ItemOne" _).
  exists (KStr "y"), (Sample.item_node (KStr "y") "ItemOne").
  repeat split. discriminate.
Defined.

(** ** The filter engine *)

Lemma walk_app nodes1 nodes2 : walk (nodes1 ++ nodes2) = walk nodes1 ++ walk nodes2.
Proof. unfold walk. apply flat_map_app. Qed.

Lemma walk_flat_map (g : Node -> list Node) nodes n :
  In n (walk (flat_map g nodes)) <-> exists c, In c nodes /\ In n (walk (g c)).
Proof.
  induction nodes as [|c nodes IH]; simpl.
  - split; [intros [] | intros (c & [] & _)].
  - rewrite walk_app, in_app_iff, IH. split.
    + intros [H | (c' & Hin & H)]; eauto.
    + intros (c' & [<- | Hin] & H); eauto.
Qed.

Lemma walk_node_eq node :
  walk_node node =
  node :: (if is_section node then flat_map walk_node (childNodes node) else []).
Proof. destruct node; reflexivity. Qed.

Lemma is_section_with_childNodes node children :
  is_section (with_childNodes node children) = is_section node.
Proof. reflexivity. Qed.

Lemma retained_mono filterFn sources sources' n :
  (forall s, In s sources -> In s sources') ->
  retained filterFn sources n -> retained filterFn sources' n.
Proof.
  intros Hsub [Hitem Hsec]. split.
  - intros H. destruct (Hitem H). auto.
  - intros H. destruct (Hsec H) as (? & ? & source & ? & ? & ?). eauto 8.
Qed.

Lemma filter_step_retained filterFn node :
  forall n, In n (walk (filter_step filterFn node)) ->
            retained filterFn (walk_node node) n.
Proof.
  induction node as [ty k tv hc cs IH] using Node_tree_ind.
  intros n. cbn [filter_step hasChildNodes childNodes].
  set (node := mkNode ty k tv hc cs).
  destruct (is_section node) eqn:Hsec; cbn [andb negb].
  - destruct hc; [|intros []].
    destruct (0 <? length (flat_map (filter_step filterFn) cs)) eqn:Hlen; [|intros []].
    unfold walk. cbn [flat_map]. rewrite app_nil_r, walk_node_eq.
    rewrite is_section_with_childNodes, Hsec. cbn [with_childNodes childNodes].
    fold (with_childNodes node (flat_map (filter_step filterFn) cs)).
    intros [<- | Hin].
    + split; [rewrite is_section_with_childNodes, Hsec; discriminate|].
      intros _. repeat split.
      * apply Nat.ltb_lt in Hlen. cbn [with_childNodes childNodes].
        intros Heq. rewrite Heq in Hlen. simpl in Hlen. lia.
      * exists node. repeat split; [left; reflexivity | exact Hsec].
    + apply (walk_flat_map (filter_step filterFn)) in Hin as (c & Hc & Hn).
      rewrite Forall_forall in IH.
      apply list_elem_of_In in Hc as Hc'.
      eapply retained_mono; [|exact (IH c Hc' n Hn)].
      intros s Hs. rewrite walk_node_eq, Hsec. right. apply in_flat_map. eauto.
  - destruct (filterFn node) eqn:Hf; [|intros []].
    unfold walk. cbn [flat_map]. rewrite app_nil_r, walk_node_eq, Hsec.
    intros [<- | []]. split.
    + intros _. split; [exact Hf | left; reflexivity].
    + congruence.
Qed.

Lemma filter_retained filterFn nodes :
  forall n, In n (walk (filter nodes filterFn)) -> retained filterFn (walk nodes) n.
Proof.
  intros n Hin. apply (walk_flat_map (filter_step filterFn)) in Hin as (c & Hc & Hn).
  eapply retained_mono; [|exact (filter_step_retained filterFn c n Hn)].
  intros s Hs. apply in_flat_map. eauto.
Qed.

Lemma flat_map_singletons {A} (g : A -> list A) (l : list A) :
  Forall (fun x => g x = [x]) l -> flat_map g l = l.
Proof.
  induction 1 as [|x l Hx _ IH]; simpl; [reflexivity|].
  rewrite Hx, IH. reflexivity.
Qed.

Lemma filter_step_populated node :
  populated node = true -> filter_step (fun _ => true) node = [node].
Proof.
  induction node as [ty k tv hc cs IH] using Node_tree_ind.
  cbn [populated filter_step hasChildNodes childNodes].
  set (node := mkNode ty k tv hc cs).
  destruct (is_section node) eqn:Hsec; cbn [andb negb]; [|reflexivity].
  intros H. apply andb_prop in H as [H Hall]. apply andb_prop in H as [-> Hlen].
  assert (Hcs : flat_map (filter_step (fun _ => true)) cs = cs).
  { apply flat_map_singletons.
    rewrite Forall_forall in IH |- *. intros c Hc. apply IH; [exact Hc|].
    rewrite forallb_forall in Hall. apply Hall, list_elem_of_In, Hc. }
  rewrite Hcs, Hlen. reflexivity.
Qed.

Lemma filter_populated nodes :
  forallb populated nodes = true -> filter nodes (fun _ => true) = nodes.
Proof.
  induction nodes as [|node nodes IH]; [reflexivity|].
  simpl. intros H. apply andb_prop in H as [Hp Hall].
  unfold filter in *. simpl. rewrite (filter_step_populated node Hp), IH by assumption.
  reflexivity.
Qed.

Lemma filter_step_length filterFn node : length (filter_step filterFn node) <= 1.
Proof.
  destruct node as [ty k tv hc cs]. cbn [filter_step hasChildNodes childNodes].
  repeat match goal with |- context [if ?b then _ else _] => destruct b end;
    simpl; lia.
Qed.

Lemma flat_map_length_le {A} (g : A -> list A) (l : list A) :
  (forall x, length (g x) <= 1) -> length (flat_map g l) <= length l.
Proof.
  intros Hg. induction l as [|x l IH]; simpl; [lia|].
  rewrite length_app. specialize (Hg x). lia.
Qed.

Lemma flat_map_fixed {A} (g : A -> list A) (l : list A) :
  (forall x, length (g x) <= 1) ->
  flat_map g l = l -> Forall (fun x => g x = [x]) l.
Proof.
  intros Hg. induction l as [|x l IH]; simpl; intros Heq; [constructor|].
  pose proof (Hg x) as Hx. pose proof (flat_map_length_le g l Hg) as Hl.
  destruct (g x) as [|y [|z rest]] eqn:Egx; simpl in *.
  - rewrite Heq in Hl. simpl in Hl. lia.
  - injection Heq as Hy Hrest. subst y. constructor; [exact Egx | exact (IH Hrest)].
  - lia.
Qed.

Lemma filter_step_fixed node :
  filter_step (fun _ => true) node = [node] -> populated node = true.
Proof.
  induction node as [ty k tv hc cs IH] using Node_tree_ind.
  cbn [populated filter_step hasChildNodes childNodes].
  set (node := mkNode ty k tv hc cs).
  destruct (is_section node) eqn:Hsec; cbn [andb negb]; [|reflexivity].
  destruct hc; [|discriminate].
  destruct (0 <? length (flat_map (filter_step (fun _ => true)) cs)) eqn:Hlen;
    [|discriminate].
  intros [= Hcs]. rewrite Hcs in Hlen. rewrite Hlen. cbn [andb].
  apply flat_map_fixed in Hcs; [|apply filter_step_length].
  apply forallb_forall. intros c Hc.
  rewrite Forall_forall in IH, Hcs. apply list_elem_of_In in Hc. auto.
Qed.

(** Filtering with the always-true predicate gives the tree back only if
    every section of the tree is flagged as having children and has one. *)
Lemma filter_always_true_fixes_only_populated nodes :
  filter nodes (fun _ => true) = nodes -> forallb populated nodes = true.
Proof.
  intros Heq. apply flat_map_fixed in Heq; [|apply filter_step_length].
  apply forallb_forall. intros node Hin.
  rewrite Forall_forall in Heq. apply list_elem_of_In in Hin.
  apply filter_step_fixed, Heq, Hin.
Qed.

(** C10, as stated, fails: filtering a section without children followed by
    the item Apple with the always-true predicate loses the key of the
    section. *)
Lemma filter_always_true_drops_empty_section :
  let nodes := [Sample.section_node (KStr "s") []; Sample.item_node (KStr "a") "Apple"] in
  keys (ListCollection nodes) = [KStr "s"; KStr "a"] /\
  keys (ListCollection (filter nodes (fun _ => true))) = [KStr "a"] /\
  keys (ListCollection (filter nodes (fun _ => true))) <> keys (ListCollection nodes).
Proof. repeat split. discriminate. Qed.

(** C10, amended.  For every node tree in which every section is flagged as
    having children and has at least one child, filtering with an
    always-true predicate yields the source tree itself, and so a collection
    whose keys and their order are those of the source collection. *)
Theorem filter_always_true_keeps_populated_tree (nodes : list Node) :
  forallb populated nodes = true ->
  filter nodes (fun _ => true) = nodes /\
  keys (ListCollection (filter nodes (fun _ => true))) = keys (ListCollection nodes).
Proof.
  intros H. rewrite (filter_populated nodes H). split; reflexivity.
Qed.

(** An instance of C10, amended: a section holding Apple and Banana. *)
Lemma filter_always_true_keeps_populated_tree_witness :
  keys (ListCollection
          (filter [Sample.section_node (KStr "s") Sample.fruits] (fun _ => true)))
  = [KStr "s"; KStr "a"; KStr "b"].
Proof.
  rewrite (proj2 (filter_always_true_keeps_populated_tree
                    [Sample.section_node (KStr "s") Sample.fruits] eq_refl)).
  reflexivity.
Defined.

(** *** [filter] on the store *)

Section StoreFacts.

Local Abbreviation loc := Store.loc.
Local Abbreviation store := Store.store.
Local Abbreviation Obj := Store.Obj.
Local Abbreviation repr := Store.repr.
Local Abbreviation emitted := Store.emitted.
Local Abbreviation emitted_item := Store.emitted_item.
Local Abbreviation emitted_section := Store.emitted_section.
Local Abbreviation filter_loop := Store.filter_loop.
Local Abbreviation set_childNodes := Store.set_childNodes.
Local Abbreviation o_type := Store.o_type.
Local Abbreviation o_childNodes := Store.o_childNodes.

Lemma Forall2_transport {A B} (P Q : A -> B -> Prop) xs ys :
  Forall (fun y => forall x, P x y -> Q x y) ys ->
  Forall2 P xs ys -> Forall2 Q xs ys.
Proof.
  intros Hall H. induction H as [|x y xs ys Hxy _ IH]; constructor.
  - inversion Hall; subst. auto.
  - apply IH. inversion Hall; assumption.
Qed.

(** A tree held by a store is held by every store that extends it. *)
Lemma repr_mono (σ σ' : store) :
  σ ⊆ σ' -> forall node l, repr σ l node -> repr σ' l node.
Proof.
  intros Hsub node.
  induction node as [ty k tv hc cs IH] using Node_tree_ind.
  intros l Hr. inversion Hr as [? o ? Hl Hty Hk Htv Hhc Hcs]; subst.
  econstructor; eauto using lookup_weaken.
  simpl in *. eapply Forall2_transport; eassumption.
Qed.

Lemma emitted_weaken (σ0 : store) (old old' : gset loc) (σ' σ'' : store) :
  old' ⊆ old ->
  (forall l o, l ∉ old -> σ' !! l = Some o -> σ'' !! l = Some o) ->
  forall node l, emitted σ0 old σ' l node -> emitted σ0 old' σ'' l node.
Proof.
  intros Hold Hkeep node.
  induction node as [ty k tv hc cs IH] using Node_tree_ind.
  intros l He.
  inversion He as [? ? Hitem Hr | ? o ? Hsec Hfresh Hl Hty Hk Htv Hhc Hcs]; subst.
  - apply emitted_item; assumption.
  - eapply emitted_section; eauto.
    simpl in *. eapply Forall2_transport; eassumption.
Qed.

(** What came about in the result is a tree held by the final store. *)
Lemma emitted_repr (σ0 : store) (old : gset loc) (σ' : store) :
  σ0 ⊆ σ' -> forall node l, emitted σ0 old σ' l node -> repr σ' l node.
Proof.
  intros Hsub node.
  induction node as [ty k tv hc cs IH] using Node_tree_ind.
  intros l He.
  inversion He as [? ? Hitem Hr | ? o ? Hsec Hfresh Hl Hty Hk Htv Hhc Hcs]; subst.
  - eapply repr_mono; eassumption.
  - econstructor; eauto.
    simpl in *. eapply Forall2_transport; eassumption.
Qed.

Lemma subseteq_alter_fresh (σ σ2 : store) (l : loc) (g : Obj -> Obj) :
  σ ⊆ σ2 -> σ !! l = None -> σ ⊆ alter g l σ2.
Proof.
  intros Hsub Hnone. apply map_subseteq_spec. intros i x Hi.
  rewrite lookup_alter_ne by congruence.
  eapply lookup_weaken; eassumption.
Qed.

Variable filterFn : Node -> bool.
Variable filterFn_ref : store -> loc -> bool.

(** The predicate on references reads the tree the reference holds. *)
Hypothesis filterFn_reads_tree :
  forall σ l node, repr σ l node -> filterFn_ref σ l = filterFn node.

Variable σ0 : store.

Local Abbreviation call_ok := (call_ok filterFn σ0).

Lemma filter_loop_ok call nodes :
  Forall (fun node => call_ok call (childNodes node)) nodes ->
  forall ls filteredNode σ, σ0 ⊆ σ -> Forall2 (repr σ0) ls nodes ->
    exists ls' σ',
      filter_loop filterFn_ref call ls filteredNode σ = Some (filteredNode ++ ls', σ') /\
      σ ⊆ σ' /\
      Forall2 (emitted σ0 (dom σ) σ') ls' (filter nodes filterFn).
Proof.
  induction nodes as [|node nodes IH]; intros Hcalls ls filteredNode σ Hσ Hrepr.
  - inversion Hrepr; subst. exists [], σ. simpl. rewrite app_nil_r.
    repeat split; [reflexivity | constructor].
  - inversion Hrepr as [|l ? ls0 ? Hl Hls]; subst.
    inversion Hcalls as [|? ? Hcall Hcalls']; subst.
    specialize (IH Hcalls').
    inversion Hl as [? o ? Hlook Hty Hk Htv Hhc Hcs]; subst.
    assert (Hlook' : σ !! l = Some o) by (eapply lookup_weaken; eassumption).
    assert (Hsec : bool_decide (o_type o = section) = is_section node).
    { unfold is_section. rewrite Hty. reflexivity. }
    rewrite filter_cons. cbn [filter_loop]. rewrite Hlook', Hsec, Hhc.
    destruct (is_section node && hasChildNodes node) eqn:Hbranch.
    + (* a section with children: copied, its children filtered *)
      set (copyOfNode := fresh (dom σ)).
      assert (Hfresh : copyOfNode ∉ dom σ) by apply is_fresh.
      assert (Hnone : σ !! copyOfNode = None) by (apply not_elem_of_dom; exact Hfresh).
      set (σ1 := <[copyOfNode := o]> σ).
      assert (Hσ1 : σ ⊆ σ1) by (apply insert_subseteq; exact Hnone).
      destruct (Hcall (o_childNodes o) σ1) as (filtered & σ2 & Hrec & Hσ2 & Hem);
        [etrans; eassumption | exact Hcs |].
      rewrite Hrec.
      assert (Hlen : length filtered = length (filter (childNodes node) filterFn))
        by (eapply Forall2_length; eassumption).
      rewrite Hlen. cbv zeta.
      destruct (0 <? length (filter (childNodes node) filterFn)) eqn:Hpos.
      * set (σ3 := alter (set_childNodes filtered) copyOfNode σ2).
        assert (Hσ3 : σ ⊆ σ3).
        { apply subseteq_alter_fresh; [etrans; eassumption | exact Hnone]. }
        destruct (IH ls0 (filteredNode ++ [copyOfNode]) σ3) as (ls' & σ' & Hloop & Hσ' & Hrest);
          [etrans; eassumption | exact Hls |].
        exists (copyOfNode :: ls'), σ'. split; [|split].
        -- rewrite Hloop, <- app_assoc. reflexivity.
        -- etrans; eassumption.
        -- simpl. constructor.
           ++ assert (Hcopy : σ3 !! copyOfNode = Some (set_childNodes filtered o)).
              { unfold σ3. rewrite lookup_alter_eq.
                rewrite (lookup_weaken σ1 σ2 copyOfNode o); [reflexivity| |exact Hσ2].
                apply lookup_insert_eq. }
              eapply emitted_section with (o := set_childNodes filtered o).
              ** apply andb_prop in Hbranch as [Hs _]. unfold is_section in Hs.
                 apply bool_decide_eq_true_1 in Hs. exact Hs.
              ** exact Hfresh.
              ** eapply lookup_weaken; eassumption.
              ** exact Hty.
              ** exact Hk.
              ** exact Htv.
              ** exact Hhc.
              ** simpl.
                 eapply Forall2_impl; [exact Hem|].
                 intros l' n' He. eapply emitted_weaken; [| |exact He].
                 --- apply subseteq_dom. exact Hσ1.
                 --- intros l2 o2 Hl2 Ho2.
                     eapply lookup_weaken; [|exact Hσ'].
                     unfold σ3. rewrite lookup_alter_ne; [exact Ho2|].
                     intros <-. apply Hl2. unfold σ1.
                     apply elem_of_dom. rewrite lookup_insert_eq. eauto.
           ++ eapply Forall2_impl; [exact Hrest|].
              intros l' n' He. eapply emitted_weaken; [| |exact He].
              ** apply subseteq_dom. exact Hσ3.
              ** auto.
      * destruct (IH ls0 filteredNode σ2) as (ls' & σ' & Hloop & Hσ' & Hrest);
          [etrans; [exact Hσ | etrans; eassumption] | exact Hls |].
        exists ls', σ'. split; [|split].
        -- exact Hloop.
        -- etrans; [exact Hσ1 | etrans; eassumption].
        -- simpl. eapply Forall2_impl; [exact Hrest|].
           intros l' n' He. eapply emitted_weaken; [| |exact He].
           ++ apply subseteq_dom. etrans; eassumption.
           ++ auto.
    + (* not a section with children *)
      assert (Hread : filterFn_ref σ l = filterFn node).
      { apply filterFn_reads_tree. eapply repr_mono; eassumption. }
      rewrite Hread.
      destruct (negb (is_section node) && filterFn node) eqn:Hkeep.
      * destruct (IH ls0 (filteredNode ++ [l]) σ) as (ls' & σ' & Hloop & Hσ' & Hrest);
          [exact Hσ | exact Hls |].
        exists (l :: ls'), σ'. split; [|split].
        -- rewrite Hloop, <- app_assoc. reflexivity.
        -- exact Hσ'.
        -- simpl. constructor; [|exact Hrest].
           apply emitted_item; [|exact Hl].
           apply andb_prop in Hkeep as [Hs _]. unfold is_section in Hs.
           apply negb_true_iff, bool_decide_eq_false_1 in Hs.
           destruct (type node); [reflexivity | contradiction].
      * destruct (IH ls0 filteredNode σ) as (ls' & σ' & Hloop & Hσ' & Hrest);
          [exact Hσ | exact Hls |].
        exists ls', σ'. repeat split; assumption.
Qed.

Lemma depth_childNodes node : depth node = S (depth_list (childNodes node)).
Proof. destruct node; reflexivity. Qed.

Lemma depth_list_In node nodes : In node nodes -> depth node <= depth_list nodes.
Proof.
  intros Hin. unfold depth_list.
  pose proof (proj1 (list_max_le (map depth nodes) (list_max (map depth nodes)))
                (Nat.le_refl _)) as Hall.
  rewrite List.Forall_forall in Hall. apply Hall. apply in_map. exact Hin.
Qed.

(** With fuel beyond the depth of the trees, [filter] on the store returns
    and does what [filter] on the trees does. *)
Lemma filter_store_ok fuel :
  forall nodes, depth_list nodes < fuel -> call_ok (Store.filter fuel filterFn_ref) nodes.
Proof.
  induction fuel as [|fuel IH]; intros nodes Hdepth; [lia|].
  intros ls σ Hσ Hrepr. cbn [Store.filter].
  destruct (filter_loop_ok (Store.filter fuel filterFn_ref) nodes) with
    (ls := ls) (filteredNode := @nil loc) (σ := σ)
    as (ls' & σ' & Hloop & Hσ' & Hem); try assumption.
  - apply List.Forall_forall. intros node Hin. apply IH.
    pose proof (depth_list_In node nodes Hin) as Hle.
    rewrite depth_childNodes in Hle. lia.
  - exists ls', σ'. repeat split; assumption.
Qed.

End StoreFacts.

(** C4.  For every node tree and every predicate, in the tree [filter]
    returns every item satisfies the predicate and is a node of the source,
    and every section is flagged as having children, has a non-empty child
    list and is the copy of a section of the source carrying the filtered
    children of that section (a section whose filtered children are empty
    has no copy in the result).  On the store, with fuel beyond the depth of
    the tree, [filter] returns; the store it leaves extends the store it
    found, so no object of the source is changed; the items of the result
    are references of the source and the sections are objects that were not
    in the store before; and the result holds the filtered tree while the
    source still holds the tree it held. *)
Theorem filter_keeps_matching_items_and_copies_sections
    (filterFn : Node -> bool) (filterFn_ref : Store.store -> Store.loc -> bool)
    (σ : Store.store) (ls : list Store.loc) (nodes : list Node) (fuel : nat) :
  (forall σ' l node, Store.repr σ' l node -> filterFn_ref σ' l = filterFn node) ->
  Forall2 (Store.repr σ) ls nodes ->
  depth_list nodes < fuel ->
  (forall n, In n (walk (filter nodes filterFn)) -> retained filterFn (walk nodes) n) /\
  exists ls' σ',
    Store.filter fuel filterFn_ref ls σ = Some (ls', σ') /\
    σ ⊆ σ' /\
    Forall2 (Store.emitted σ (dom σ) σ') ls' (filter nodes filterFn) /\
    Forall2 (Store.repr σ') ls' (filter nodes filterFn) /\
    Forall2 (Store.repr σ') ls nodes.
Proof.
  intros Hreads Hrepr Hfuel. split; [apply filter_retained|].
  destruct (filter_store_ok filterFn filterFn_ref Hreads σ fuel nodes Hfuel ls σ)
    as (ls' & σ' & Hrun & Hσ' & Hem); [reflexivity | exact Hrepr |].
  exists ls', σ'. repeat split; try assumption.
  - eapply Forall2_impl; [exact Hem|].
    intros l n He. eapply emitted_repr; eassumption.
  - eapply Forall2_impl; [exact Hrepr|].
    intros l n Hr. eapply repr_mono; eassumption.
Qed.

(** An instance of C4: the section holding Apple and Banana, filtered for
    Apple on the store; the copy of the section is the new object 4, its one
    child is the object 2 of the source, and the source section still has
    its two children. *)
Lemma filter_keeps_matching_items_and_copies_sections_witness :
  exists ls' σ',
    Store.filter 3 Sample.is_apple_ref [1%positive] Sample.fruit_store = Some (ls', σ') /\
    Sample.fruit_store ⊆ σ' /\
    Forall2 (Store.repr σ') ls'
      (filter [Sample.section_node (KStr "s") Sample.fruits] Sample.is_apple).
Proof.
  destruct (filter_keeps_matching_items_and_copies_sections
              Sample.is_apple Sample.is_apple_ref Sample.fruit_store [1%positive]
              [Sample.section_node (KStr "s") Sample.fruits] 3)
    as (_ & ls' & σ' & Hrun & Hsub & _ & Hrepr & _).
  - intros σ' l node Hr. inversion Hr as [? o ? Hl _ _ Htv _ _]; subst.
    unfold Sample.is_apple_ref, Sample.is_apple. rewrite Hl, Htv. reflexivity.
  - repeat (econstructor; try reflexivity).
  - vm_compute. lia.
  - exists ls', σ'. repeat split; assumption.
Defined.

Example filter_store_fruits :
  (let '(ls', σ') := default ([], ∅)
                       (Store.filter 3 Sample.is_apple_ref [1%positive] Sample.fruit_store) in
   (ls', Store.o_childNodes <$> σ' !! 4%positive, Store.o_childNodes <$> σ' !! 1%positive))
  = ([4%positive], Some [2%positive], Some [2%positive; 3%positive]).
Proof. vm_compute. reflexivity. Qed.

(** * Further properties of the code *)

(** ** [filter] *)

Lemma flat_map_pointwise {A B} (g h : A -> list B) (l : list A) :
  Forall (fun x => g x = h x) l -> flat_map g l = flat_map h l.
Proof.
  induction 1 as [|x l Hx _ IH]; simpl; [reflexivity|].
  rewrite Hx, IH. reflexivity.
Qed.

Lemma flat_map_nested {A B C} (g : A -> list B) (h : B -> list C) (l : list A) :
  flat_map h (flat_map g l) = flat_map (fun x => flat_map h (g x)) l.
Proof.
  induction l as [|x l IH]; simpl; [reflexivity|].
  rewrite flat_map_app, IH. reflexivity.
Qed.

Lemma filter_step_eq filterFn node :
  filter_step filterFn node =
  if is_section node && hasChildNodes node then
    let filtered := filter (childNodes node) filterFn in
    if 0 <? length filtered then [with_childNodes node filtered] else []
  else if negb (is_section node) && filterFn node then [node]
  else [].
Proof. destruct node; reflexivity. Qed.

Lemma filter_step_compose f g node :
  flat_map (filter_step g) (filter_step f node)
  = filter_step (fun n => f n && g n) node.
Proof.
  induction node as [ty k tv hc cs IH] using Node_tree_ind.
  set (node := mkNode ty k tv hc cs).
  assert (Hcs : filter (filter cs f) g = filter cs (fun n => f n && g n)).
  { unfold filter. rewrite flat_map_nested. apply flat_map_pointwise, IH. }
  rewrite (filter_step_eq f node), (filter_step_eq (fun n => f n && g n) node).
  cbv zeta. change (childNodes node) with cs. rewrite <- Hcs.
  destruct (is_section node) eqn:Hsec, (hasChildNodes node) eqn:Hhc, (f node) eqn:Hfn;
    cbn [andb negb]; try reflexivity.
  1, 2: destruct (filter cs f) as [|c filtered] eqn:Hf; [reflexivity|];
    change (0 <? length (c :: filtered)) with true; cbv iota;
    change (flat_map (filter_step g) [with_childNodes node (c :: filtered)])
      with (filter_step g (with_childNodes node (c :: filtered)) ++ []);
    rewrite app_nil_r, filter_step_eq, is_section_with_childNodes, Hsec;
    change (hasChildNodes (with_childNodes node (c :: filtered))) with (hasChildNodes node);
    rewrite Hhc; cbn [andb]; cbv zeta;
    change (childNodes (with_childNodes node (c :: filtered))) with (c :: filtered);
    destruct (0 <? length (filter (c :: filtered) g)); reflexivity.
  all: change (flat_map (filter_step g) [node]) with (filter_step g node ++ []);
    rewrite app_nil_r, filter_step_eq, Hsec, ?Hhc; cbn [andb negb]; reflexivity.
Qed.

Lemma filter_step_ext f g node :
  (forall n, f n = g n) -> filter_step f node = filter_step g node.
Proof.
  intros Hfg. induction node as [ty k tv hc cs IH] using Node_tree_ind.
  set (node := mkNode ty k tv hc cs).
  rewrite !filter_step_eq. change (childNodes node) with cs. unfold filter.
  rewrite (flat_map_pointwise _ _ cs IH), (Hfg node). reflexivity.
Qed.

Lemma filter_ext f g nodes :
  (forall n, f n = g n) -> filter nodes f = filter nodes g.
Proof.
  intros Hfg. unfold filter. apply flat_map_pointwise, Forall_forall.
  intros node _. apply filter_step_ext, Hfg.
Qed.

Lemma filter_twice f g nodes :
  filter (filter nodes f) g = filter nodes (fun n => f n && g n).
Proof.
  unfold filter. rewrite flat_map_nested.
  apply flat_map_pointwise, Forall_forall. intros node _.
  apply filter_step_compose.
Qed.

(** X1.  Filtering a filtered tree is filtering once with both predicates, so the
    order of two filters does not matter. *)
Theorem filter_filter (nodes : list Node) (f g : Node -> bool) :
  filter (filter nodes f) g = filter nodes (fun n => f n && g n) /\
  filter (filter nodes f) g = filter (filter nodes g) f.
Proof.
  split; [apply filter_twice|].
  rewrite !filter_twice. apply filter_ext. intros n. apply andb_comm.
Qed.

(** X2.  Filtering is idempotent: a second pass with the same predicate changes
    nothing. *)
Theorem filter_idempotent (nodes : list Node) (f : Node -> bool) :
  filter (filter nodes f) f = filter nodes f.
Proof.
  rewrite filter_twice. apply filter_ext. intros n. apply andb_diag.
Qed.

Lemma walk_filter_step_section filterFn node :
  is_section node = true -> hasChildNodes node = true ->
  filter (childNodes node) filterFn <> [] ->
  walk (filter_step filterFn node) =
  with_childNodes node (filter (childNodes node) filterFn)
    :: walk (filter (childNodes node) filterFn).
Proof.
  intros Hsec Hhc Hne. rewrite filter_step_eq, Hsec, Hhc. cbn [andb]. cbv zeta.
  destruct (filter (childNodes node) filterFn) as [|c filtered] eqn:Hf; [contradiction|].
  change (0 <? length (c :: filtered)) with true. cbv iota.
  unfold walk at 1. cbn [flat_map]. rewrite app_nil_r, walk_node_eq.
  rewrite is_section_with_childNodes, Hsec. reflexivity.
Qed.

Lemma filter_step_nil_or_section filterFn node :
  is_section node = true ->
  filter_step filterFn node = [] \/
  (hasChildNodes node = true /\ filter (childNodes node) filterFn <> []).
Proof.
  intros Hsec. rewrite filter_step_eq, Hsec. cbn [andb negb]. cbv zeta.
  destruct (hasChildNodes node); [|left; reflexivity].
  destruct (filter (childNodes node) filterFn); [left; reflexivity|].
  right. split; [reflexivity | discriminate].
Qed.

Lemma walk_filter_step_item filterFn node :
  is_section node = false ->
  walk (filter_step filterFn node) = if filterFn node then [node] else [].
Proof.
  intros Hsec. rewrite filter_step_eq, Hsec. cbn [andb negb].
  destruct (filterFn node); [|reflexivity].
  unfold walk. cbn [flat_map]. rewrite app_nil_r, walk_node_eq, Hsec. reflexivity.
Qed.

Lemma walk_cons node nodes : walk (node :: nodes) = walk_node node ++ walk nodes.
Proof. reflexivity. Qed.

Lemma filter_cons_step node nodes filterFn :
  filter (node :: nodes) filterFn = filter_step filterFn node ++ filter nodes filterFn.
Proof. reflexivity. Qed.

Lemma walk_filter_keys_sublist_list filterFn nodes :
  Forall (fun node =>
            map key (walk (filter_step filterFn node)) `sublist_of` map key (walk_node node))
         nodes ->
  map key (walk (filter nodes filterFn)) `sublist_of` map key (walk nodes).
Proof.
  induction 1 as [|c cs Hc _ IHcs]; [constructor|].
  rewrite filter_cons_step, walk_app, walk_cons, !map_app.
  apply sublist_app; assumption.
Qed.

Lemma walk_filter_keys_sublist filterFn :
  forall node,
    map key (walk (filter_step filterFn node)) `sublist_of` map key (walk_node node).
Proof.
  induction node as [ty k tv hc cs IH] using Node_tree_ind.
  set (node := mkNode ty k tv hc cs).
  apply walk_filter_keys_sublist_list in IH.
  destruct (is_section node) eqn:Hsec.
  - destruct (filter_step_nil_or_section filterFn node Hsec) as [-> | [Hhc Hne]].
    + apply sublist_nil_l.
    + rewrite (walk_filter_step_section filterFn node Hsec Hhc Hne).
      rewrite (walk_node_eq node), Hsec. cbn [map with_childNodes key].
      apply sublist_skip. exact IH.
  - rewrite (walk_filter_step_item filterFn node Hsec), walk_node_eq, Hsec.
    destruct (filterFn node); [reflexivity | apply sublist_nil_l].
Qed.

(** X3.  Filtering keeps the order: the keys along the walk of the filtered tree
    are the keys along the walk of the source with some left out, and the
    same holds of the top-level nodes. *)
Theorem filter_preserves_order (nodes : list Node) (filterFn : Node -> bool) :
  map key (walk (filter nodes filterFn)) `sublist_of` map key (walk nodes) /\
  map key (filter nodes filterFn) `sublist_of` map key nodes.
Proof.
  split.
  - apply walk_filter_keys_sublist_list, Forall_forall.
    intros node _. apply walk_filter_keys_sublist.
  - induction nodes as [|node nodes IH]; [constructor|].
    rewrite filter_cons. cbv zeta.
    repeat match goal with |- context [if ?b then _ else _] => destruct b end;
      cbn [app map with_childNodes key];
      (apply sublist_skip || apply sublist_cons); exact IH.
Qed.

Lemma reach_node_eq node :
  reach_node node =
  node :: (if is_section node && hasChildNodes node
           then reach (childNodes node) else []).
Proof. destruct node; reflexivity. Qed.

Lemma flat_map_nonempty {A B} (g : A -> list B) (l : list A) :
  flat_map g l <> [] -> exists x, In x l /\ g x <> [].
Proof.
  induction l as [|x l IH]; simpl; [congruence|].
  destruct (g x) eqn:Hx; simpl.
  - intros H. destruct (IH H) as (y & Hy & Hg). eauto.
  - intros _. exists x. split; [left; reflexivity | congruence].
Qed.

Lemma flat_map_nonempty_intro {A B} (g : A -> list B) (l : list A) x :
  In x l -> g x <> [] -> flat_map g l <> [].
Proof.
  intros Hin Hx Hnil. apply Hx.
  destruct (g x) as [|b bs] eqn:Hg; [reflexivity|]. exfalso.
  assert (Hb : In b (flat_map g l)) by (apply in_flat_map; exists x; rewrite Hg; simpl; auto).
  rewrite Hnil in Hb. exact Hb.
Qed.

(** A node that [filter] emits for [node] has, in its walk, an item that
    satisfies the predicate and that [filter] reaches in [node]. *)
Lemma filter_step_has_item filterFn :
  forall node, filter_step filterFn node <> [] ->
    exists n, In n (walk (filter_step filterFn node)) /\
              is_section n = false /\ filterFn n = true /\ In n (reach_node node).
Proof.
  induction node as [ty k tv hc cs IH] using Node_tree_ind.
  set (node := mkNode ty k tv hc cs). intros Hne.
  destruct (is_section node) eqn:Hsec.
  - destruct (filter_step_nil_or_section filterFn node Hsec) as [Hnil | [Hhc Hcs]];
      [contradiction|].
    change (childNodes node) with cs in Hcs.
    destruct (flat_map_nonempty _ _ Hcs) as (c & Hc & Hstep).
    rewrite Forall_forall in IH. apply list_elem_of_In in Hc as Hc'.
    destruct (IH c Hc' Hstep) as (n & Hn & Hitem & Hf & Hreach).
    exists n. repeat split; try assumption.
    + rewrite (walk_filter_step_section filterFn node Hsec Hhc Hcs). right.
      apply (walk_flat_map (filter_step filterFn)). eauto.
    + rewrite reach_node_eq, Hsec, Hhc. right. apply in_flat_map. eauto.
  - rewrite filter_step_eq, Hsec in Hne. cbn [andb negb] in Hne.
    destruct (filterFn node) eqn:Hf; [|contradiction].
    exists node. repeat split; try assumption.
    + rewrite (walk_filter_step_item filterFn node Hsec), Hf. left. reflexivity.
    + rewrite reach_node_eq. left. reflexivity.
Qed.

Lemma filter_has_item filterFn nodes :
  filter nodes filterFn <> [] ->
  exists n, In n (walk (filter nodes filterFn)) /\
            is_section n = false /\ filterFn n = true /\ In n (reach nodes).
Proof.
  intros Hne. destruct (flat_map_nonempty _ _ Hne) as (c & Hc & Hstep).
  destruct (filter_step_has_item filterFn c Hstep) as (n & Hn & Hitem & Hf & Hreach).
  exists n. repeat split; try assumption.
  - apply (walk_flat_map (filter_step filterFn)). eauto.
  - apply in_flat_map. eauto.
Qed.

Lemma filter_step_complete filterFn :
  forall node n,
    In n (reach_node node) -> is_section n = false -> filterFn n = true ->
    In n (walk (filter_step filterFn node)).
Proof.
  induction node as [ty k tv hc cs IH] using Node_tree_ind.
  set (node := mkNode ty k tv hc cs). intros n Hin Hitem Hf.
  rewrite reach_node_eq in Hin. destruct Hin as [<- | Hin].
  - rewrite (walk_filter_step_item filterFn node Hitem), Hf. left. reflexivity.
  - destruct (is_section node) eqn:Hsec; [|contradiction].
    destruct (hasChildNodes node) eqn:Hhc; [|contradiction].
    cbn [andb] in Hin. change (childNodes node) with cs in Hin.
    apply in_flat_map in Hin as (c & Hc & Hn).
    rewrite Forall_forall in IH. apply list_elem_of_In in Hc as Hc'.
    pose proof (IH c Hc' n Hn Hitem Hf) as Hwalk.
    assert (Hcs : filter (childNodes node) filterFn <> []).
    { apply flat_map_nonempty_intro with (x := c); [exact Hc|].
      intros Hnil. rewrite Hnil in Hwalk. exact Hwalk. }
    rewrite (walk_filter_step_section filterFn node Hsec Hhc Hcs). right.
    apply (walk_flat_map (filter_step filterFn)). eauto.
Qed.

Lemma filter_step_item_reached filterFn :
  forall node n,
    In n (walk (filter_step filterFn node)) -> is_section n = false ->
    In n (reach_node node) /\ filterFn n = true.
Proof.
  induction node as [ty k tv hc cs IH] using Node_tree_ind.
  set (node := mkNode ty k tv hc cs). intros n Hin Hitem.
  destruct (is_section node) eqn:Hsec.
  - destruct (filter_step_nil_or_section filterFn node Hsec) as [Hnil | [Hhc Hcs]].
    + rewrite Hnil in Hin. contradiction.
    + rewrite (walk_filter_step_section filterFn node Hsec Hhc Hcs) in Hin.
      destruct Hin as [<- | Hin].
      * rewrite is_section_with_childNodes in Hitem. congruence.
      * apply (walk_flat_map (filter_step filterFn)) in Hin as (c & Hc & Hn).
        rewrite Forall_forall in IH. apply list_elem_of_In in Hc as Hc'.
        destruct (IH c Hc' n Hn Hitem) as [Hreach Hf]. split; [|exact Hf].
        rewrite reach_node_eq, Hsec, Hhc. right. apply in_flat_map. eauto.
  - rewrite (walk_filter_step_item filterFn node Hsec) in Hin.
    destruct (filterFn node) eqn:Hf; [|contradiction].
    destruct Hin as [<- | []]. split; [|exact Hf].
    rewrite reach_node_eq. left. reflexivity.
Qed.

Lemma filter_items_iff (nodes : list Node) (filterFn : Node -> bool) (n : Node) :
  is_section n = false ->
  (In n (walk (filter nodes filterFn)) <->
   In n (reach nodes) /\ filterFn n = true).
Proof.
  intros Hitem. split.
  - intros Hin. apply (walk_flat_map (filter_step filterFn)) in Hin as (c & Hc & Hn).
    destruct (filter_step_item_reached filterFn c n Hn Hitem) as [Hreach Hf].
    split; [|exact Hf]. apply in_flat_map. eauto.
  - intros [Hin Hf]. apply in_flat_map in Hin as (c & Hc & Hn).
    apply (walk_flat_map (filter_step filterFn)). exists c. split; [exact Hc|].
    apply filter_step_complete; assumption.
Qed.

(** X4.  The items of the filtered tree are exactly the items that [filter]
    reaches (at the top level, or below sections flagged as having children)
    and that satisfy the predicate: none is lost and none is invented. *)
Theorem filter_items_exact (nodes : list Node) (filterFn : Node -> bool) (n : Node) :
  is_section n = false ->
  (In n (walk (filter nodes filterFn)) <->
   In n (reach nodes) /\ filterFn n = true).
Proof.
  intros Hitem. split.
  - intros Hin. apply (walk_flat_map (filter_step filterFn)) in Hin as (c & Hc & Hn).
    destruct (filter_step_item_reached filterFn c n Hn Hitem) as [Hreach Hf].
    split; [|exact Hf]. apply in_flat_map. eauto.
  - intros [Hin Hf]. apply in_flat_map in Hin as (c & Hc & Hn).
    apply (walk_flat_map (filter_step filterFn)). exists c. split; [exact Hc|].
    apply filter_step_complete; assumption.
Qed.

(** An instance: Apple below a section is found by a predicate for Apple. *)
Lemma filter_items_exact_witness :
  In (Sample.item_node (KStr "a") "Apple")
     (walk (filter [Sample.section_node (KStr "s") Sample.fruits] Sample.is_apple)).
Proof.
  apply filter_items_exact; [reflexivity|].
  split; [right; left; reflexivity | reflexivity].
Defined.

Lemma filter_nil_iff (nodes : list Node) (filterFn : Node -> bool) :
  filter nodes filterFn = [] <->
  forall n, In n (reach nodes) -> is_section n = false -> filterFn n = false.
Proof.
  split.
  - intros Hnil n Hin Hitem. destruct (filterFn n) eqn:Hf; [|reflexivity].
    exfalso. assert (Hw : In n (walk (filter nodes filterFn))).
    { apply filter_items_iff; [exact Hitem|]. split; assumption. }
    rewrite Hnil in Hw. exact Hw.
  - intros Hnone. destruct (filter nodes filterFn) as [|x rest] eqn:Hf; [reflexivity|].
    exfalso. destruct (filter_has_item filterFn nodes) as (n & _ & Hitem & Hfn & Hreach).
    + rewrite Hf. discriminate.
    + rewrite (Hnone n Hreach Hitem) in Hfn. discriminate.
Qed.

(** X5.  The filtered tree is empty exactly when no item that [filter] reaches
    satisfies the predicate. *)
Theorem filter_empty_iff (nodes : list Node) (filterFn : Node -> bool) :
  filter nodes filterFn = [] <->
  forall n, In n (reach nodes) -> is_section n = false -> filterFn n = false.
Proof.
  split.
  - intros Hnil n Hin Hitem. destruct (filterFn n) eqn:Hf; [|reflexivity].
    exfalso. assert (Hw : In n (walk (filter nodes filterFn))).
    { apply in_flat_map in Hin as (c & Hc & Hn).
      apply (walk_flat_map (filter_step filterFn)). exists c. split; [exact Hc|].
      apply filter_step_complete; assumption. }
    rewrite Hnil in Hw. exact Hw.
  - intros Hnone. destruct (filter nodes filterFn) as [|x rest] eqn:Hf; [reflexivity|].
    exfalso. destruct (filter_has_item filterFn nodes) as (n & _ & Hitem & Hfn & Hreach).
    + rewrite Hf. discriminate.
    + rewrite (Hnone n Hreach Hitem) in Hfn. discriminate.
Qed.

(** X6.  No section is shown empty: every section of the filtered tree has, below
    it, an item that satisfies the predicate. *)
Theorem filter_sections_hold_items (nodes : list Node) (filterFn : Node -> bool) (s : Node) :
  In s (walk (filter nodes filterFn)) -> is_section s = true ->
  exists n, In n (walk_node s) /\ is_section n = false /\ filterFn n = true.
Proof.
  intros Hin Hsec.
  destruct (filter_retained filterFn nodes s Hin) as [_ Hret].
  destruct (Hret Hsec) as (_ & Hne & source & _ & Hsrc & ->).
  cbn [with_childNodes childNodes] in Hne.
  destruct (filter_has_item filterFn (childNodes source) Hne) as (n & Hn & Hitem & Hf & _).
  exists n. repeat split; try assumption.
  rewrite walk_node_eq, is_section_with_childNodes, Hsrc. right. exact Hn.
Qed.

(** An instance: the copy of the section that holds Apple. *)
Lemma filter_sections_hold_items_witness :
  exists n,
    In n (walk_node (with_childNodes (Sample.section_node (KStr "s") Sample.fruits)
                       [Sample.item_node (KStr "a") "Apple"])) /\
    is_section n = false /\ Sample.is_apple n = true.
Proof.
  apply (filter_sections_hold_items
           [Sample.section_node (KStr "s") Sample.fruits] Sample.is_apple).
  - left. reflexivity.
  - reflexivity.
Defined.

(** ** Keys, texts and the collection *)

Lemma Map_get_In (m : list (Key * Node)) k v :
  NoDup (map fst m) -> In (k, v) m -> Map_get k m = Some v.
Proof.
  induction m as [|[k' v'] m IH]; simpl; [intros _ []|].
  intros Hnd [Heq | Hin].
  - inversion Heq; subst. rewrite decide_True by reflexivity. reflexivity.
  - apply NoDup_cons in Hnd as [Hnotin Hnd].
    rewrite decide_False.
    + apply IH; assumption.
    + intros ->. apply Hnotin. apply list_elem_of_In.
      apply (in_map fst) in Hin. exact Hin.
Qed.

Lemma Map_get_Some (m : list (Key * Node)) k v :
  Map_get k m = Some v -> In (k, v) m.
Proof.
  induction m as [|[k' v'] m IH]; simpl; [discriminate|].
  destruct (decide (k' = k)) as [->|_].
  - intros [= ->]. left. reflexivity.
  - intros H. right. apply IH, H.
Qed.

Lemma Map_set_keys k v (m : list (Key * Node)) :
  map fst (Map_set k v m) =
  if bool_decide (k ∈ map fst m) then map fst m else map fst m ++ [k].
Proof.
  induction m as [|[k' v'] m IH]; cbn [Map_set map fst].
  - case_bool_decide as H; [|reflexivity]. apply not_elem_of_nil in H. contradiction.
  - destruct (decide (k' = k)) as [->|Hne]; cbn [map fst].
    + rewrite bool_decide_eq_true_2 by apply list_elem_of_here. reflexivity.
    + rewrite IH. destruct (bool_decide_reflect (k ∈ map fst m)) as [Hin|Hnin].
      * rewrite bool_decide_eq_true_2 by (apply list_elem_of_further, Hin). reflexivity.
      * rewrite bool_decide_eq_false_2; [reflexivity|].
        intros H. apply elem_of_cons in H as [?|?]; [congruence | contradiction].
Qed.

Lemma Map_set_NoDup k v (m : list (Key * Node)) :
  NoDup (map fst m) -> NoDup (map fst (Map_set k v m)).
Proof.
  intros Hnd. rewrite Map_set_keys.
  destruct (bool_decide_reflect (k ∈ map fst m)) as [Hin|Hnin]; [exact Hnd|].
  apply NoDup_app. repeat split.
  - exact Hnd.
  - intros x Hx Hk. apply list_elem_of_singleton in Hk. subst. contradiction.
  - apply NoDup_singleton.
Qed.

Lemma fold_visit_invariant (P : list (Key * Node) -> Prop) (cs : list Node) :
  Forall (fun c => forall m, P m -> P (visit c m)) cs ->
  forall m, P m -> P (fold_left (fun m c => visit c m) cs m).
Proof.
  induction 1 as [|c cs Hc _ IH]; intros m Hm; simpl; [exact Hm|].
  apply IH, Hc, Hm.
Qed.

Lemma visit_eq node m :
  visit node m =
  if is_section node
  then fold_left (fun m child => visit child m) (childNodes node)
         (Map_set (key node) node m)
  else Map_set (key node) node m.
Proof. destruct node; reflexivity. Qed.

Lemma visit_NoDup :
  forall node m, NoDup (map fst m) -> NoDup (map fst (visit node m)).
Proof.
  induction node as [ty k tv hc cs IH] using Node_tree_ind.
  intros m Hm. rewrite visit_eq. cbn [childNodes key].
  destruct (is_section _).
  - apply (fold_visit_invariant (fun m => NoDup (map fst m))); [exact IH|].
    apply Map_set_NoDup, Hm.
  - apply Map_set_NoDup, Hm.
Qed.

(** A key map built by the walk holds every key once. *)
Lemma ListCollection_NoDup (nodes : list Node) : NoDup (keys (ListCollection nodes)).
Proof.
  unfold keys, ListCollection. cbn [keyMap].
  apply (fold_visit_invariant (fun m => NoDup (map fst m))).
  - apply Forall_forall. intros node _ m. apply visit_NoDup.
  - constructor.
Qed.

Lemma computeKeyFromValue_lookup (collection : Collection) (value : string) (k : Key) :
  NoDup (keys collection) ->
  computeKeyFromValue value collection = Some k ->
  exists node,
    getItem collection k = Some node /\
    is_section node = false /\
    textValue node = value.
Proof.
  intros Hnd Hkey. apply computeKeyFromValue_loop_Some in Hkey
    as (pre & node & post & Hmap & Hsec & Htext & _).
  exists node. repeat split; try assumption.
  unfold getItem. apply Map_get_In; [exact Hnd|].
  rewrite Hmap. apply in_or_app. right. left. reflexivity.
Qed.

(** X7.  From a text to a key and back: in a collection that holds every key
    once, the key that [computeKeyFromValue] finds for a text identifies,
    through [getItem], an item whose text is exactly that text. *)
Theorem computeKeyFromValue_then_getItem
    (collection : Collection) (value : string) (k : Key) :
  NoDup (keys collection) ->
  computeKeyFromValue value collection = Some k ->
  exists node,
    getItem collection k = Some node /\
    is_section node = false /\
    textValue node = value.
Proof.
  intros Hnd Hkey. apply computeKeyFromValue_loop_Some in Hkey
    as (pre & node & post & Hmap & Hsec & Htext & _).
  exists node. repeat split; try assumption.
  unfold getItem. apply Map_get_In; [exact Hnd|].
  rewrite Hmap. apply in_or_app. right. left. reflexivity.
Qed.

(** An instance: "Banana" over Apple and Banana. *)
Lemma computeKeyFromValue_then_getItem_witness :
  exists node,
    getItem (ListCollection Sample.fruits) (KStr "b") = Some node /\
    is_section node = false /\
    textValue node = "Banana".
Proof.
  apply (computeKeyFromValue_then_getItem (ListCollection Sample.fruits) "Banana").
  - apply ListCollection_NoDup.
  - reflexivity.
Defined.

Lemma getItem_then_computeKeyFromValue_aux
    (collection : Collection) (k : Key) (node : Node) :
  NoDup (keys collection) ->
  getItem collection k = Some node ->
  is_section node = false ->
  exists k' node',
    computeKeyFromValue (textValue node) collection = Some k' /\
    getItem collection k' = Some node' /\
    is_section node' = false /\
    textValue node' = textValue node.
Proof.
  intros Hnd Hget Hsec. apply Map_get_Some in Hget as Hin.
  destruct (computeKeyFromValue (textValue node) collection) as [k'|] eqn:Hc.
  - destruct (computeKeyFromValue_lookup collection _ k' Hnd Hc) as (node' & ? & ? & ?).
    exists k', node'. repeat split; assumption.
  - exfalso. apply computeKeyFromValue_loop_None in Hc.
    rewrite Forall_forall in Hc. apply list_elem_of_In in Hin.
    destruct (Hc _ Hin) as [Hs|Ht]; simpl in *; congruence.
Qed.

(** X8.  From a key to a text and back: the text of an item that [getItem] finds
    resolves, through [computeKeyFromValue], to the key of an item with the
    same text, and to the very key when no other entry of the key map is an
    item with that text. *)
Theorem getItem_then_computeKeyFromValue
    (collection : Collection) (k : Key) (node : Node) :
  NoDup (keys collection) ->
  getItem collection k = Some node ->
  is_section node = false ->
  (exists k' node',
     computeKeyFromValue (textValue node) collection = Some k' /\
     getItem collection k' = Some node' /\
     is_section node' = false /\
     textValue node' = textValue node) /\
  ((forall k2 n2, In (k2, n2) (keyMap collection) ->
      is_section n2 = false -> textValue n2 = textValue node -> k2 = k) ->
   computeKeyFromValue (textValue node) collection = Some k).
Proof.
  intros Hnd Hget Hsec. apply Map_get_Some in Hget as Hin.
  assert (Hsome : exists k', computeKeyFromValue (textValue node) collection = Some k').
  { destruct (computeKeyFromValue (textValue node) collection) as [k'|] eqn:Hc; [eauto|].
    exfalso. apply computeKeyFromValue_loop_None in Hc.
    rewrite Forall_forall in Hc. apply list_elem_of_In in Hin.
    destruct (Hc _ Hin) as [Hs|Ht]; simpl in *; congruence. }
  destruct Hsome as (k' & Hk'). split.
  - destruct (computeKeyFromValue_lookup collection _ k' Hnd Hk') as (node' & ? & ? & ?).
    exists k', node'. repeat split; assumption.
  - intros Huniq. rewrite Hk'. f_equal.
    apply computeKeyFromValue_loop_Some in Hk' as (pre & n' & post & Hmap & Hs & Ht & _).
    apply (Huniq k' n'); [|exact Hs|exact Ht].
    rewrite Hmap. apply in_or_app. right. left. reflexivity.
Qed.

(** An instance: the key of Apple over Apple and Banana. *)
Lemma getItem_then_computeKeyFromValue_witness :
  computeKeyFromValue "Apple" (ListCollection Sample.fruits) = Some (KStr "a").
Proof.
  refine (proj2 (getItem_then_computeKeyFromValue (ListCollection Sample.fruits)
                   (KStr "a") (Sample.item_node (KStr "a") "Apple")
                   (ListCollection_NoDup _) eq_refl eq_refl) _).
  intros k2 n2 [H|[H|[]]] _ Ht; inversion H; subst; [reflexivity | discriminate].
Defined.

(** X9.  The state the hook returns is consistent: whenever it has a selected key
    and either that key was derived from the text (no truthy key in the
    props) or the props supply a non-empty input value, the key identifies
    an item whose text is the input value. *)
Theorem returned_selectedKey_names_inputValue
    (collator_compare : string -> string -> Z) (toLowerCase : string -> string)
    (props : ComboBoxStateProps) (rendered : Hooks) (env : Env)
    (state : ComboBoxState.t) (k : Key) :
  useComboBoxState collator_compare toLowerCase props rendered env = Normal state ->
  ComboBoxState.selectedKey state = Some k ->
  JS.truthy JS.truthy_key (props_selectedKey props) = false \/
  JS.truthy JS.truthy_string (props_inputValue props) = true ->
  exists node,
    getItem (unfilteredCollection props) k = Some node /\
    textValue node = ComboBoxState.inputValue state.
Proof.
  unfold useComboBoxState. destruct (mismatch props) eqn:Hmis; [discriminate|].
  intros [= <-]. cbn [ComboBoxState.selectedKey ComboBoxState.inputValue].
  unfold selectedKey, JS.or_else.
  destruct (JS.truthy JS.truthy_key (props_selectedKey props)) eqn:Hkey.
  - intros Hsel [Hfalse | Hinput]; [discriminate|].
    unfold mismatch in Hmis. rewrite Hkey, Hinput in Hmis. cbn [andb] in Hmis.
    apply negb_false_iff, bool_decide_eq_true_1 in Hmis.
    rewrite Hsel in Hmis. cbn [mbind option_bind] in Hmis.
    unfold inputValue, useControlledState_value, toString. rewrite <- Hmis.
    destruct (getItem (unfilteredCollection props) k) as [node|] eqn:Hget.
    + exists node. split; reflexivity.
    + exfalso. rewrite <- Hmis in Hinput. discriminate.
  - intros Hsel _.
    destruct (computeKeyFromValue_lookup (unfilteredCollection props) _ k
                (ListCollection_NoDup _) Hsel) as (node & Hget & _ & Htext).
    exists node. split; assumption.
Qed.

(** An instance: "Banana" typed over Apple and Banana selects Banana. *)
Lemma returned_selectedKey_names_inputValue_witness :
  exists node,
    getItem (unfilteredCollection (Sample.props_of Sample.fruits)) (KStr "b") = Some node /\
    textValue node = "Banana".
Proof.
  destruct (returned_selectedKey_names_inputValue
              Sample.compare Sample.toLowerCase (Sample.props_of Sample.fruits)
              (Sample.hooks_of "Banana") (Sample.env_of false None) _ (KStr "b")
              eq_refl eq_refl (or_introl eq_refl)) as (node & Hget & Htext).
  exists node. split; [exact Hget | exact Htext].
Defined.

(** ** The handlers and the effects *)

Lemma selection_calls_app log1 log2 :
  selection_calls (log1 ++ log2) = selection_calls log1 ++ selection_calls log2.
Proof. unfold selection_calls. apply List.filter_app. Qed.

(** X10.  [setSelectedKey] never reports a selection change twice: run on the
    cells it was built on, it makes at most one [onSelectionChange] call,
    either through the setter of the input value or by itself. *)
Theorem setSelectedKey_reports_at_most_once
    (props : ComboBoxStateProps) (rendered : Hooks) (key : option Key) :
  length (selection_calls (log_of (setSelectedKey props rendered key) rendered)) <= 1.
Proof.
  rewrite setSelectedKey_log, selection_calls_app, length_app.
  destruct (JS.truthy_string (itemText_of props key)).
  - rewrite setInputValue_log, onInputChange_log.
    change (useControlledState_value (props_inputValue props) rendered)
      with (inputValue props rendered).
    rewrite (String.eqb_sym (inputValue props rendered) (itemText_of props key)).
    destruct (String.eqb (itemText_of props key) (inputValue props rendered)); cbn [negb andb].
    + destruct (negb _ && _); simpl; lia.
    + destruct (props_onInputChange props), (negb _ && _); simpl; lia.
  - destruct (_ && _ && _); simpl; lia.
Qed.

(** X11.  Selecting by key goes through the text: when the item of the key has a
    non-empty text that is not the current input text, the key that
    [setSelectedKey] reports is the one the text resolves to, which
    identifies an item with that text but need not be the key passed in. *)
Theorem setSelectedKey_reports_key_of_text
    (props : ComboBoxStateProps) (rendered : Hooks) (k : Key) (node : Node) (k' : option Key) :
  getItem (unfilteredCollection props) k = Some node ->
  is_section node = false ->
  textValue node <> "" ->
  textValue node <> inputValue props rendered ->
  In (onSelectionChange_call k') (log_of (setSelectedKey props rendered (Some k)) rendered) ->
  k' = computeKeyFromValue (textValue node) (unfilteredCollection props) /\
  k' <> selectedKey props rendered /\
  exists key' node',
    k' = Some key' /\
    getItem (unfilteredCollection props) key' = Some node' /\
    textValue node' = textValue node.
Proof.
  intros Hget Hsec Htext Hdiff.
  assert (Hitem : itemText_of props (Some k) = textValue node).
  { unfold itemText_of. simpl. rewrite Hget. reflexivity. }
  rewrite setSelectedKey_log, Hitem, setInputValue_log, onInputChange_log.
  apply truthy_string_true in Htext as Ht. rewrite Ht.
  change (useControlledState_value (props_inputValue props) rendered)
    with (inputValue props rendered).
  destruct (String.eqb_spec (inputValue props rendered) (textValue node)) as [Heq|_];
    [congruence|].
  destruct (String.eqb_spec (textValue node) (inputValue props rendered)) as [Heq|_];
    [congruence|].
  cbn [negb andb]. rewrite app_nil_r.
  intros Hin.
  assert (Hk' : k' = computeKeyFromValue (textValue node) (unfilteredCollection props) /\
                k' <> selectedKey props rendered).
  { destruct Hin as [H | Hin]; [discriminate|].
    apply in_app_or in Hin as [Hin | Hin].
    - destruct (props_onInputChange props); [|contradiction].
      destruct Hin as [H|[]]. discriminate.
    - destruct (bool_decide_reflect
                  (computeKeyFromValue (textValue node) (unfilteredCollection props)
                   = selectedKey props rendered)) as [Heq|Hne]; [contradiction|].
      cbn [negb andb] in Hin.
      destruct (props_onSelectionChange props); [|contradiction].
      destruct Hin as [H|[]]. inversion H. split; [reflexivity | assumption]. }
  destruct Hk' as [-> Hne]. repeat split; [exact Hne|].
  destruct (getItem_then_computeKeyFromValue_aux (unfilteredCollection props) k node
              (ListCollection_NoDup _) Hget Hsec) as (key' & node' & Hc & Hg & _ & Htx).
  exists key', node'. repeat split; assumption.
Qed.

(** An instance: with two items that read "Apple" and "B" typed, selecting
    the second one reports the key of the first. *)
Lemma setSelectedKey_reports_key_of_text_witness :
  let props := Sample.props_of
                 [Sample.item_node (KStr "a") "Apple"; Sample.item_node (KStr "c") "Apple"] in
  Some (KStr "a") = computeKeyFromValue "Apple" (unfilteredCollection props) /\
  In (onSelectionChange_call (Some (KStr "a")))
     (log_of (setSelectedKey props (Sample.hooks_of "B") (Some (KStr "c")))
        (Sample.hooks_of "B")).
Proof.
  intros props.
  assert (Hin : In (onSelectionChange_call (Some (KStr "a")))
                  (log_of (setSelectedKey props (Sample.hooks_of "B") (Some (KStr "c")))
                     (Sample.hooks_of "B"))).
  { right. right. left. reflexivity. }
  split; [|exact Hin].
  exact (proj1 (setSelectedKey_reports_key_of_text props (Sample.hooks_of "B") (KStr "c")
                  (Sample.item_node (KStr "c") "Apple") (Some (KStr "a"))
                  eq_refl eq_refl ltac:(discriminate) ltac:(discriminate) Hin)).
Defined.

Lemma setSelectedKey_keeps_refs props rendered key hooks :
  hook_lastSelectedKeyProp (cells_after (setSelectedKey props rendered key) hooks)
    = hook_lastSelectedKeyProp hooks /\
  hook_lastValue (cells_after (setSelectedKey props rendered key) hooks)
    = hook_lastValue hooks /\
  hook_isFocused (cells_after (setSelectedKey props rendered key) hooks)
    = hook_isFocused hooks.
Proof.
  rewrite setSelectedKey_cells.
  destruct (JS.truthy_string _); [|repeat split].
  rewrite setInputValue_cells. destruct (props_inputValue props); repeat split.
Qed.

(** X12.  The effect that follows [props.selectedKey] acts once per value: run
    again on the cells it left, with the same props, it makes no call and
    leaves the cells as they are. *)
Theorem selectedKey_effect_runs_once
    (props : ComboBoxStateProps) (rendered hooks : Hooks) :
  let cells := cells_after (selectedKey_effect props rendered) hooks in
  hook_lastSelectedKeyProp cells = props_selectedKey props /\
  log_of (selectedKey_effect props rendered) cells = [] /\
  cells_after (selectedKey_effect props rendered) cells = cells.
Proof.
  intros cells.
  assert (Hlast : hook_lastSelectedKeyProp cells = props_selectedKey props).
  { unfold cells, selectedKey_effect. autorewrite with act. reflexivity. }
  split; [exact Hlast|].
  unfold selectedKey_effect. autorewrite with act.
  rewrite Hlast, bool_decide_eq_true_2 by reflexivity. cbn [negb].
  split; [reflexivity|].
  rewrite <- Hlast. destruct cells; reflexivity.
Qed.

(** X13.  The effect that reports the input value to [onFilter] acts once per
    value: run again on the cells it left, with the same input value, it
    makes no call and leaves the cells as they are. *)
Theorem onFilter_effect_runs_once
    (props : ComboBoxStateProps) (rendered hooks : Hooks) :
  let cells := cells_after (onFilter_effect props rendered) hooks in
  log_of (onFilter_effect props rendered) cells = [] /\
  cells_after (onFilter_effect props rendered) cells = cells.
Proof.
  intros cells.
  assert (Hlast : hook_lastValue cells = inputValue props rendered).
  { unfold cells, onFilter_effect. autorewrite with act.
    destruct (_ && _); reflexivity. }
  unfold onFilter_effect. autorewrite with act.
  rewrite Hlast, String.eqb_refl, andb_false_r.
  split; [reflexivity|].
  rewrite <- Hlast. destruct cells; reflexivity.
Qed.

(** X14.  A default selected key reaches the state through its text only: on the
    first run, with no selected key, input value or default input value in
    the props, the input value is the text of the item of the default key,
    and the selected key is the one that text resolves to, an item with the
    same text. *)
Theorem defaultSelectedKey_selects_by_text
    (props : ComboBoxStateProps) (k : Key) (node : Node) :
  props_selectedKey props = None ->
  props_inputValue props = None ->
  JS.truthy JS.truthy_string (props_defaultInputValue props) = false ->
  props_defaultSelectedKey props = Some k ->
  getItem (unfilteredCollection props) k = Some node ->
  is_section node = false ->
  textValue node <> "" ->
  inputValue props (initialHooks props) = textValue node /\
  exists k' node',
    selectedKey props (initialHooks props) = Some k' /\
    getItem (unfilteredCollection props) k' = Some node' /\
    textValue node' = textValue node.
Proof.
  intros Hkey Hinput Hdefault Hdk Hget Hsec Htext.
  assert (Hvalue : inputValue props (initialHooks props) = textValue node).
  { unfold inputValue, useControlledState_value, initialHooks, initialInputValue, toString.
    rewrite Hinput, Hkey, Hdk. cbn [hook_inputValue mbind option_bind].
    rewrite Hget. cbn [fmap option_fmap option_map].
    unfold JS.or_else. cbn [JS.truthy]. rewrite Hdefault. cbn [JS.truthy].
    apply truthy_string_true in Htext. rewrite Htext. reflexivity. }
  split; [exact Hvalue|].
  unfold selectedKey. rewrite Hkey, Hvalue. cbn [JS.or_else JS.truthy].
  destruct (getItem_then_computeKeyFromValue_aux (unfilteredCollection props) k node
              (ListCollection_NoDup _) Hget Hsec) as (k' & node' & Hc & Hg & _ & Ht).
  exists k', node'. repeat split; assumption.
Qed.

(** An instance: the default key of Banana over Apple and Banana. *)
Lemma defaultSelectedKey_selects_by_text_witness :
  let props :=
    {| props_items := Sample.fruits;
       props_selectedKey := None;
       props_defaultSelectedKey := Some (KStr "b");
       props_inputValue := None;
       props_defaultInputValue := None;
       props_allowsCustomValue := false;
       props_onInputChange := true;
       props_onSelectionChange := true;
       props_onFilter := false |} in
  inputValue props (initialHooks props) = "Banana".
Proof.
  intros props.
  exact (proj1 (defaultSelectedKey_selects_by_text props (KStr "b")
                  (Sample.item_node (KStr "b") "Banana")
                  eq_refl eq_refl eq_refl eq_refl eq_refl eq_refl ltac:(discriminate))).
Defined.

(** ** The filtered collection, the gate and the suggestion *)

(** X15.  The collection the hook shows: it is the unfiltered collection when the
    filter callback is supplied or the input is empty; otherwise its items
    are exactly the items [filter] reaches in the nodes of the props that the
    default predicate matches against the current input. *)
Theorem filteredCollection_holds_the_matches
    (collator_compare : string -> string -> Z) (toLowerCase : string -> string)
    (props : ComboBoxStateProps) (rendered : Hooks) :
  (props_onFilter props = true \/ inputValue props rendered = "" ->
   filteredCollection collator_compare toLowerCase props rendered
   = unfilteredCollection props) /\
  (props_onFilter props = false -> inputValue props rendered <> "" ->
   forall n, is_section n = false ->
     (In n (walk (iterable
                    (filteredCollection collator_compare toLowerCase props rendered))) <->
      In n (reach (props_items props)) /\
      defaultFilterFn collator_compare toLowerCase props rendered n = true)).
Proof.
  unfold filteredCollection, nodeFilter, itemsControlled. split.
  - intros [-> | ->]; [reflexivity|]. rewrite orb_true_r. reflexivity.
  - intros -> Hne n Hitem.
    destruct (String.eqb_spec (inputValue props rendered) "") as [|_]; [contradiction|].
    cbn [orb useSingleSelectListState_collection ListCollection iterable].
    apply filter_items_iff, Hitem.
Qed.

(** X16.  When the filter is active and matches no item, nothing is shown: the
    filtered collection has size 0, [open()] makes no call and the state the
    hook returns is not open, whatever the trigger state and the focus. *)
Theorem no_match_keeps_closed
    (collator_compare : string -> string -> Z) (toLowerCase : string -> string)
    (props : ComboBoxStateProps) (rendered : Hooks) (env : Env) :
  props_onFilter props = false ->
  inputValue props rendered <> "" ->
  (forall n, In n (reach (props_items props)) -> is_section n = false ->
     defaultFilterFn collator_compare toLowerCase props rendered n = false) ->
  size (filteredCollection collator_compare toLowerCase props rendered) = 0 /\
  (forall focusStrategy hooks,
     log_of (open collator_compare toLowerCase props rendered focusStrategy) hooks = []) /\
  (forall state,
     useComboBoxState collator_compare toLowerCase props rendered env = Normal state ->
     ComboBoxState.isOpen state = false).
Proof.
  intros Hcb Hne Hnone.
  assert (Hsize : size (filteredCollection collator_compare toLowerCase props rendered) = 0).
  { unfold filteredCollection, nodeFilter, itemsControlled. rewrite Hcb.
    destruct (String.eqb_spec (inputValue props rendered) "") as [|_]; [contradiction|].
    cbn [orb useSingleSelectListState_collection].
    rewrite (proj2 (filter_nil_iff _ _) Hnone). reflexivity. }
  repeat split.
  - exact Hsize.
  - intros focusStrategy hooks. unfold open. rewrite Hsize. reflexivity.
  - intros state. unfold useComboBoxState. destruct (mismatch props); [discriminate|].
    intros [= <-]. cbn [ComboBoxState.isOpen]. rewrite Hsize. apply andb_false_r.
Qed.

(** An instance: "zz" typed over Apple and Banana. *)
Lemma no_match_keeps_closed_witness :
  size (filteredCollection Sample.compare Sample.toLowerCase
          (Sample.props_of Sample.fruits) (Sample.hooks_of "zz")) = 0.
Proof.
  refine (proj1 (no_match_keeps_closed Sample.compare Sample.toLowerCase
                   (Sample.props_of Sample.fruits) (Sample.hooks_of "zz")
                   (Sample.env_of true None) eq_refl ltac:(discriminate) _)).
  intros n [<- | [<- | []]] _; reflexivity.
Defined.

(** X17.  A suggestion is always a completion of the input: when the hook
    suggests a text, the input is not empty, custom values are not allowed,
    the text is not empty, its prefix of the length of the input compares
    equal to the input, and it is the text of the focused node or of a node
    the filtered collection iterates over. *)
Theorem suggestedValue_completes_input
    (collator_compare : string -> string -> Z) (toLowerCase : string -> string)
    (props : ComboBoxStateProps) (rendered : Hooks) (env : Env) (v : string) :
  suggestedValue collator_compare toLowerCase props rendered env = Some v ->
  inputValue props rendered <> "" /\
  props_allowsCustomValue props = false /\
  prefix_matches collator_compare props rendered v /\
  ((exists k node,
      selectionManager_focusedKey env = Some k /\
      getItem (filteredCollection collator_compare toLowerCase props rendered) k
        = Some node /\
      textValue node = v) \/
   In v (map textValue
           (iterable (filteredCollection collator_compare toLowerCase props rendered)))).
Proof.
  unfold suggestedValue.
  destruct (0 <? String.length (inputValue props rendered)) eqn:Hlen; [|discriminate].
  destruct (props_allowsCustomValue props); [discriminate|]. cbn [andb negb].
  assert (Hinput : inputValue props rendered <> "").
  { intros Heq. rewrite Heq in Hlen. discriminate. }
  intros Hsug. split; [exact Hinput|]. split; [reflexivity|].
  assert (Hloop : forall values,
            suggestedValue_loop collator_compare props rendered
              (String.length (inputValue props rendered)) values None = Some v ->
            prefix_matches collator_compare props rendered v /\ In v values).
  { intros values H. apply suggestedValue_loop_Some in H as (pre & post & -> & Hm & _).
    split; [exact Hm|]. apply in_or_app. right. left. reflexivity. }
  destruct (selectionManager_focusedKey env) as [k|] eqn:Hkey;
    cbn [JS.truthy mbind option_bind] in Hsug.
  - destruct (JS.truthy_key k).
    + destruct (getItem _ k) as [node|] eqn:Hget;
        cbn [fmap option_fmap option_map JS.truthy default] in Hsug; unfold id in Hsug.
      * destruct (JS.truthy_string (JS.slice (textValue node) 0 _)) eqn:Hslice;
          cbn [andb] in Hsug.
        -- apply truthy_string_true, slice_prefix_nonempty in Hslice as [Htext _].
           destruct (Z.eqb_spec (collator_compare (inputValue props rendered)
                       (JS.slice (textValue node) 0
                          (String.length (inputValue props rendered)))) 0) as [Hcmp|_].
           ++ cbn [JS.truthy] in Hsug. apply truthy_string_true in Htext as Ht.
              rewrite Ht in Hsug. cbn [negb] in Hsug. injection Hsug as <-.
              split; [split; assumption|]. left. eauto.
           ++ cbn [JS.truthy negb] in Hsug. destruct (Hloop _ Hsug). split; [assumption|].
              right. assumption.
        -- cbn [JS.truthy negb] in Hsug. destruct (Hloop _ Hsug). split; [assumption|].
           right. assumption.
      * cbn [JS.truthy negb andb] in Hsug. destruct (Hloop _ Hsug). split; [assumption|].
        right. assumption.
    + cbn [JS.truthy negb] in Hsug. destruct (Hloop _ Hsug). split; [assumption|].
      right. assumption.
  - cbn [JS.truthy negb] in Hsug. destruct (Hloop _ Hsug). split; [assumption|].
    right. assumption.
Qed.

(** An instance: "It" typed over "Item One" and "ItemOne", nothing focused. *)
Lemma suggestedValue_completes_input_witness :
  prefix_matches Sample.compare
    (Sample.props_of
       [Sample.item_node (KStr "x") "Item One"; Sample.item_node (KStr "y") "ItemOne"])
    (Sample.hooks_of "It") "Item One".
Proof.
  exact (proj1 (proj2 (proj2 (suggestedValue_completes_input
                                Sample.compare Sample.toLowerCase
                                (Sample.props_of
                                   [Sample.item_node (KStr "x") "Item One";
                                    Sample.item_node (KStr "y") "ItemOne"])
                                (Sample.hooks_of "It") (Sample.env_of true None)
                                "Item One" eq_refl)))).
Defined.

(** ** The default filter predicate, further *)

Lemma substring_middle (pre s post : string) :
  String.substring (String.length pre) (String.length s) (pre +:+ s +:+ post) = s.
Proof.
  induction pre as [|c pre IH]; simpl.
  - induction s as [|c s IHs]; simpl.
    + destruct post; reflexivity.
    + f_equal. exact IHs.
  - exact IH.
Qed.

Lemma length_append (s1 s2 : string) :
  String.length (s1 +:+ s2) = String.length s1 + String.length s2.
Proof. induction s1 as [|c s1 IH]; simpl; [reflexivity|]. rewrite IH. reflexivity. Qed.

Lemma append_empty_r (s : string) : s +:+ "" = s.
Proof.
  induction s as [|c s IH]; [reflexivity|].
  change (String c (s +:+ "") = String c s). f_equal. exact IH.
Qed.

(** X18.  A query that, once normalized, is longer than the normalized text of the
    item never matches it. *)
Theorem defaultFilterFn_rejects_longer_query
    (collator_compare : string -> string -> Z) (toLowerCase : string -> string)
    (props : ComboBoxStateProps) (rendered : Hooks) (node : Node) :
  String.length (JS.replace " " "" (toLowerCase (textValue node)))
    < String.length (lowercaseValue toLowerCase props rendered) ->
  defaultFilterFn collator_compare toLowerCase props rendered node = false.
Proof.
  intros Hlen.
  destruct (defaultFilterFn collator_compare toLowerCase props rendered node) eqn:Hm;
    [|reflexivity].
  apply defaultFilterFn_scan in Hm as (s & Hs & _). lia.
Qed.

(** An instance: "Banana" typed against the item Apple. *)
Lemma defaultFilterFn_rejects_longer_query_witness :
  defaultFilterFn Sample.compare Sample.toLowerCase (Sample.props_of Sample.fruits)
    (Sample.hooks_of "Banana") (Sample.item_node (KStr "a") "Apple") = false.
Proof.
  apply defaultFilterFn_rejects_longer_query. vm_compute. lia.
Defined.

(** X19.  Under a collator that finds every string equal to itself, the default
    predicate matches every item whose normalized text contains the
    normalized input; so it matches the item whose text is the input, and an
    input that normalizes to the empty text matches every item. *)
Theorem defaultFilterFn_matches_containing_text
    (collator_compare : string -> string -> Z) (toLowerCase : string -> string)
    (props : ComboBoxStateProps) (rendered : Hooks) (node : Node) :
  (forall s, collator_compare s s = 0%Z) ->
  (forall pre post,
     JS.replace " " "" (toLowerCase (textValue node))
       = pre +:+ lowercaseValue toLowerCase props rendered +:+ post ->
     defaultFilterFn collator_compare toLowerCase props rendered node = true) /\
  (textValue node = inputValue props rendered ->
   defaultFilterFn collator_compare toLowerCase props rendered node = true) /\
  (lowercaseValue toLowerCase props rendered = "" ->
   defaultFilterFn collator_compare toLowerCase props rendered node = true).
Proof.
  intros Hrefl.
  assert (Hcontains : forall pre post,
            JS.replace " " "" (toLowerCase (textValue node))
              = pre +:+ lowercaseValue toLowerCase props rendered +:+ post ->
            defaultFilterFn collator_compare toLowerCase props rendered node = true).
  { intros pre post Heq. apply defaultFilterFn_scan.
    exists (String.length pre). rewrite Heq, substring_middle, !length_append.
    split; [lia | apply Hrefl]. }
  split; [exact Hcontains|]. split.
  - intros Heq. apply (Hcontains "" ""). unfold lowercaseValue. rewrite Heq.
    cbn [String.append]. rewrite append_empty_r. reflexivity.
  - intros Hempty. apply (Hcontains "" (JS.replace " " "" (toLowerCase (textValue node)))).
    rewrite Hempty. reflexivity.
Qed.

Lemma Sample_compare_refl (s : string) : Sample.compare s s = 0%Z.
Proof.
  unfold Sample.compare.
  assert (H : String.compare s s = Eq).
  { induction s as [|c s IH]; [reflexivity|]. cbn [String.compare].
    unfold Ascii.compare. rewrite N.compare_refl. exact IH. }
  rewrite H. reflexivity.
Qed.

(** An instance: "Apple" typed against the item Apple. *)
Lemma defaultFilterFn_matches_containing_text_witness :
  defaultFilterFn Sample.compare Sample.toLowerCase (Sample.props_of Sample.fruits)
    (Sample.hooks_of "Apple") (Sample.item_node (KStr "a") "Apple") = true.
Proof.
  exact (proj1 (proj2 (defaultFilterFn_matches_containing_text
                         Sample.compare Sample.toLowerCase (Sample.props_of Sample.fruits)
                         (Sample.hooks_of "Apple") (Sample.item_node (KStr "a") "Apple")
                         Sample_compare_refl)) eq_refl).
Defined.

(** ** The filtered and the unfiltered collection *)









(** ** The tooltip trigger *)

Lemma forEach_setOpen_false_run (states : list nat) (g : TooltipTrigger.Globals) :
  TooltipTrigger.forEach_setOpen_false states g =
  (Normal tt, g, map (fun tooltip => TooltipTrigger.setOpen_call tooltip false) states).
Proof.
  induction states as [|tooltip rest IH]; [reflexivity|].
  cbn [TooltipTrigger.forEach_setOpen_false]. unfold TooltipTrigger.bind at 1.
  cbn [TooltipTrigger.call]. rewrite IH. reflexivity.
Qed.

Lemma enter_run props element g :
  TooltipTrigger.mounted props element ->
  TooltipTrigger.enter props g =
  (Normal tt,
   {| TooltipTrigger.visibleTooltips :=
        TooltipTrigger.visibleTooltips g ++ [TooltipTrigger.id element];
      TooltipTrigger.tooltipStates := TooltipTrigger.tooltipStates g |},
   map (fun tooltip => TooltipTrigger.setOpen_call tooltip false)
     (TooltipTrigger.tooltipStates g)).
Proof.
  intros Hm. unfold TooltipTrigger.mounted in Hm.
  unfold TooltipTrigger.enter, TooltipTrigger.ref_current_id. rewrite Hm.
  unfold TooltipTrigger.bind, TooltipTrigger.deref, TooltipTrigger.ret,
    TooltipTrigger.get, TooltipTrigger.put.
  cbn [TooltipTrigger.tooltipStates]. rewrite forEach_setOpen_false_run. reflexivity.
Qed.

Lemma enterClick_run props element g :
  TooltipTrigger.mounted props element ->
  TooltipTrigger.enterClick props g =
  (Normal tt,
   {| TooltipTrigger.visibleTooltips :=
        match TooltipTrigger.visibleTooltips g with
        | [] => [TooltipTrigger.id element]
        | _ :: rest => rest ++ [TooltipTrigger.id element]
        end;
      TooltipTrigger.tooltipStates :=
        TooltipTrigger.tooltipStates g
          ++ [TooltipTrigger.state_ref (TooltipTrigger.state props)] |},
   []).
Proof.
  intros Hm. unfold TooltipTrigger.mounted in Hm.
  unfold TooltipTrigger.enterClick, TooltipTrigger.ref_current_id. rewrite Hm.
  unfold TooltipTrigger.bind, TooltipTrigger.deref, TooltipTrigger.ret,
    TooltipTrigger.get, TooltipTrigger.put, TooltipTrigger.when.
  cbn [TooltipTrigger.visibleTooltips TooltipTrigger.tooltipStates].
  destruct (TooltipTrigger.visibleTooltips g) as [|x [|y rest]]; reflexivity.
Qed.

(** X21.  Clicks do not pile up: [enterClick] on a mounted trigger leaves
    [visibleTooltips] with the id of the trigger last and with the length it
    had, or 1 if it was empty; it registers the state of the trigger in
    [tooltipStates] and calls nothing. *)
Theorem enterClick_keeps_window
    (props : TooltipTrigger.Props) (element : TooltipTrigger.Element)
    (g : TooltipTrigger.Globals) :
  TooltipTrigger.mounted props element ->
  let g' := TooltipTrigger.globals_after (TooltipTrigger.enterClick props) g in
  TooltipTrigger.outcome (TooltipTrigger.enterClick props) g = Normal tt /\
  length (TooltipTrigger.visibleTooltips g')
    = Nat.max 1 (length (TooltipTrigger.visibleTooltips g)) /\
  List.last (TooltipTrigger.visibleTooltips g') "" = TooltipTrigger.id element /\
  TooltipTrigger.tooltipStates g'
    = TooltipTrigger.tooltipStates g
        ++ [TooltipTrigger.state_ref (TooltipTrigger.state props)] /\
  TooltipTrigger.calls (TooltipTrigger.enterClick props) g = [].
Proof.
  intros Hm g'. subst g'.
  unfold TooltipTrigger.outcome, TooltipTrigger.globals_after, TooltipTrigger.calls.
  rewrite (enterClick_run props element g Hm).
  cbn [fst snd TooltipTrigger.visibleTooltips TooltipTrigger.tooltipStates].
  repeat split.
  - destruct (TooltipTrigger.visibleTooltips g) as [|x rest]; [reflexivity|].
    rewrite length_app. simpl. lia.
  - destruct (TooltipTrigger.visibleTooltips g) as [|x rest]; [reflexivity|].
    apply List.last_last.
Qed.

(** X22.  Hovering one trigger closes every tooltip that was ever clicked: [enter]
    on a mounted trigger calls [setOpen(false)] on each entry of
    [tooltipStates], in order and as often as it is registered, and adds the
    id of the trigger to [visibleTooltips]; so after [enterClick] on one
    trigger, [enter] on any mounted trigger closes the clicked one. *)
Theorem enter_closes_registered
    (props clicked : TooltipTrigger.Props) (element element' : TooltipTrigger.Element)
    (g : TooltipTrigger.Globals) :
  TooltipTrigger.mounted props element ->
  TooltipTrigger.mounted clicked element' ->
  TooltipTrigger.calls (TooltipTrigger.enter props) g
    = map (fun tooltip => TooltipTrigger.setOpen_call tooltip false)
        (TooltipTrigger.tooltipStates g) /\
  TooltipTrigger.visibleTooltips (TooltipTrigger.globals_after (TooltipTrigger.enter props) g)
    = TooltipTrigger.visibleTooltips g ++ [TooltipTrigger.id element] /\
  In (TooltipTrigger.setOpen_call
        (TooltipTrigger.state_ref (TooltipTrigger.state clicked)) false)
     (TooltipTrigger.calls (TooltipTrigger.enter props)
        (TooltipTrigger.globals_after (TooltipTrigger.enterClick clicked) g)).
Proof.
  intros Hm Hc.
  unfold TooltipTrigger.calls, TooltipTrigger.globals_after.
  rewrite !(enter_run props element _ Hm), (enterClick_run clicked element' g Hc).
  cbn [fst snd TooltipTrigger.visibleTooltips TooltipTrigger.tooltipStates].
  repeat split.
  rewrite map_app. apply in_or_app. right. left. reflexivity.
Qed.

Lemma exit_run props e role g :
  TooltipTrigger.leaves_to e role ->
  TooltipTrigger.exit props e g =
  (Normal tt,
   {| TooltipTrigger.visibleTooltips := removelast (TooltipTrigger.visibleTooltips g);
      TooltipTrigger.tooltipStates := TooltipTrigger.tooltipStates g |},
   TooltipTrigger.console_log_call "exit function called" ::
   (if (0 <? length (TooltipTrigger.visibleTooltips g))
       && negb (bool_decide (role = Some "tooltip"))
    then [TooltipTrigger.console_log_call "exit function closing the tooltip";
          TooltipTrigger.setOpen_call
            (TooltipTrigger.state_ref (TooltipTrigger.state props)) false]
    else [])).
Proof.
  intros (target & Hrel & Hparent).
  unfold TooltipTrigger.exit.
  destruct Hrel as [Hrel | (Hrel & native & Hnative & Hto)]; rewrite Hrel;
    [|rewrite Hnative];
    unfold TooltipTrigger.bind, TooltipTrigger.deref, TooltipTrigger.ret,
      TooltipTrigger.get, TooltipTrigger.put, TooltipTrigger.when, TooltipTrigger.call;
    cbn [fst snd]; rewrite ?Hto, Hparent;
    destruct (bool_decide (role = Some "tooltip"));
    destruct (0 <? length (TooltipTrigger.visibleTooltips g)); reflexivity.
Qed.

Lemma exit_throws props e g :
  (forall role, ~ TooltipTrigger.leaves_to e role) ->
  TooltipTrigger.exit props e g =
  (Throw "TypeError", g, [TooltipTrigger.console_log_call "exit function called"]).
Proof.
  intros Hno. unfold TooltipTrigger.exit.
  unfold TooltipTrigger.bind, TooltipTrigger.deref, TooltipTrigger.ret,
    TooltipTrigger.throw, TooltipTrigger.call.
  destruct (TooltipTrigger.relatedTarget e) as [target|] eqn:Hrel.
  - destruct (TooltipTrigger.parentNode target) as [[role|]|] eqn:Hp; try reflexivity.
    exfalso. apply (Hno role). exists target. split; [left; exact Hrel | exact Hp].
  - destruct (TooltipTrigger.nativeEvent e) as [native|] eqn:Hnative; [|reflexivity].
    destruct (TooltipTrigger.toElement native) as [target|] eqn:Hto; [|reflexivity].
    destruct (TooltipTrigger.parentNode target) as [[role|]|] eqn:Hp; try reflexivity.
    exfalso. apply (Hno role). exists target. split; [|exact Hp].
    right. split; [exact Hrel|]. exists native. split; [exact Hnative | exact Hto].
Qed.

(** X23.  Hover in, hover out: [enter] followed by [exit] on a mounted trigger,
    the pointer leaving to a node below an element, puts the arrays back as
    they were; [exit] closes the tooltip of the trigger exactly when that
    element is not a tooltip. *)
Theorem enter_then_exit_restores
    (props : TooltipTrigger.Props) (element : TooltipTrigger.Element)
    (e : TooltipTrigger.MouseEvent) (role : option string) (g : TooltipTrigger.Globals) :
  TooltipTrigger.mounted props element ->
  TooltipTrigger.leaves_to e role ->
  let entered := TooltipTrigger.globals_after (TooltipTrigger.enter props) g in
  TooltipTrigger.outcome (TooltipTrigger.exit props e) entered = Normal tt /\
  TooltipTrigger.globals_after (TooltipTrigger.exit props e) entered = g /\
  (In (TooltipTrigger.setOpen_call
         (TooltipTrigger.state_ref (TooltipTrigger.state props)) false)
      (TooltipTrigger.calls (TooltipTrigger.exit props e) entered) <->
   role <> Some "tooltip").
Proof.
  intros Hm Hl entered. subst entered.
  unfold TooltipTrigger.outcome, TooltipTrigger.globals_after, TooltipTrigger.calls.
  rewrite (enter_run props element g Hm). cbn [fst snd].
  rewrite (exit_run props e role _ Hl).
  cbn [fst snd TooltipTrigger.visibleTooltips TooltipTrigger.tooltipStates].
  rewrite removelast_last, length_app. cbn [length].
  replace (0 <? length (TooltipTrigger.visibleTooltips g) + 1) with true
    by (symmetry; apply Nat.ltb_lt; lia).
  cbn [andb]. repeat split.
  - destruct g; reflexivity.
  - intros Hin Heq. rewrite bool_decide_eq_true_2 in Hin by exact Heq.
    destruct Hin as [H|[]]. discriminate.
  - intros Hne. rewrite bool_decide_eq_false_2 by exact Hne.
    right. right. left. reflexivity.
Qed.

(** An instance: a trigger with the id "t", the pointer leaving to a node
    below a tooltip. *)
Lemma enter_then_exit_restores_witness :
  let props := {| TooltipTrigger.triggerProps_ref := Some (Some {| TooltipTrigger.id := "t" |});
                  TooltipTrigger.state :=
                    {| TooltipTrigger.state_ref := 0; TooltipTrigger.state_open := true |} |} in
  let e := {| TooltipTrigger.relatedTarget :=
                Some {| TooltipTrigger.parentNode :=
                          Some (TooltipTrigger.parent_element (Some "tooltip")) |};
              TooltipTrigger.nativeEvent := None |} in
  let g := {| TooltipTrigger.visibleTooltips := []; TooltipTrigger.tooltipStates := [0] |} in
  TooltipTrigger.globals_after (TooltipTrigger.exit props e)
    (TooltipTrigger.globals_after (TooltipTrigger.enter props) g) = g.
Proof.
  intros props e g.
  refine (proj1 (proj2 (enter_then_exit_restores props {| TooltipTrigger.id := "t" |} e
                          (Some "tooltip") g eq_refl _))).
  eexists. split; [left; reflexivity | reflexivity].
Defined.

(** X24.  When the pointer leaves to nowhere (no related target, a target without
    a parent, or one below the document), [exit] throws after its first
    console message: the tooltip is not closed and [visibleTooltips] keeps
    the entry that [enter] added. *)
Theorem exit_without_target_throws
    (props : TooltipTrigger.Props) (e : TooltipTrigger.MouseEvent)
    (g : TooltipTrigger.Globals) :
  (forall role, ~ TooltipTrigger.leaves_to e role) ->
  TooltipTrigger.outcome (TooltipTrigger.exit props e) g = Throw "TypeError" /\
  TooltipTrigger.globals_after (TooltipTrigger.exit props e) g = g /\
  TooltipTrigger.calls (TooltipTrigger.exit props e) g
    = [TooltipTrigger.console_log_call "exit function called"].
Proof.
  intros Hno.
  unfold TooltipTrigger.outcome, TooltipTrigger.globals_after, TooltipTrigger.calls.
  rewrite (exit_throws props e g Hno). repeat split.
Qed.

(** An instance: the pointer leaves the window. *)
Lemma exit_without_target_throws_witness :
  let props := {| TooltipTrigger.triggerProps_ref := Some (Some {| TooltipTrigger.id := "t" |});
                  TooltipTrigger.state :=
                    {| TooltipTrigger.state_ref := 0; TooltipTrigger.state_open := true |} |} in
  let e := {| TooltipTrigger.relatedTarget := None;
              TooltipTrigger.nativeEvent := Some {| TooltipTrigger.toElement := None |} |} in
  let g := {| TooltipTrigger.visibleTooltips := ["t"]; TooltipTrigger.tooltipStates := [] |} in
  TooltipTrigger.outcome (TooltipTrigger.exit props e) g = Throw "TypeError".
Proof.
  intros props e g.
  refine (proj1 (exit_without_target_throws props e g _)).
  intros role (target & [Hrel | (_ & native & Hnative & Hto)] & _).
  - discriminate.
  - injection Hnative as <-. discriminate.
Defined.

Lemma ref_current_id_unmounted props g :
  (forall element, ~ TooltipTrigger.mounted props element) ->
  TooltipTrigger.ref_current_id props g = (Throw "TypeError", g, []).
Proof.
  intros Hno. unfold TooltipTrigger.ref_current_id, TooltipTrigger.mounted in *.
  destruct (TooltipTrigger.triggerProps_ref props) as [[element|]|]; try reflexivity.
  exfalso. apply (Hno element). reflexivity.
Qed.

Lemma unmounted_trigger_throws_aux props g :
  (forall element, ~ TooltipTrigger.mounted props element) ->
  TooltipTrigger.enter props g = (Throw "TypeError", g, []) /\
  TooltipTrigger.enterClick props g = (Throw "TypeError", g, []).
Proof.
  intros Hno. pose proof (ref_current_id_unmounted props g Hno) as Hid.
  unfold TooltipTrigger.enter, TooltipTrigger.enterClick.
  unfold TooltipTrigger.bind at 1. rewrite Hid.
  split; [reflexivity|].
  unfold TooltipTrigger.bind at 1. rewrite Hid. reflexivity.
Qed.

Lemma classic_leaves_to (e : TooltipTrigger.MouseEvent) :
  (exists role, TooltipTrigger.leaves_to e role) \/
  (forall role, ~ TooltipTrigger.leaves_to e role).
Proof.
  unfold TooltipTrigger.leaves_to.
  destruct (TooltipTrigger.relatedTarget e) as [target|] eqn:Hrel.
  - destruct (TooltipTrigger.parentNode target) as [[role|]|] eqn:Hp.
    + left. exists role, target. split; [left; reflexivity | exact Hp].
    + right. intros role (t & [H | (H & _)] & Hp'); [|discriminate].
      injection H as <-. congruence.
    + right. intros role (t & [H | (H & _)] & Hp'); [|discriminate].
      injection H as <-. congruence.
  - destruct (TooltipTrigger.nativeEvent e) as [native|] eqn:Hnative.
    + destruct (TooltipTrigger.toElement native) as [target|] eqn:Hto.
      * destruct (TooltipTrigger.parentNode target) as [[role|]|] eqn:Hp.
        -- left. exists role, target. split; [|exact Hp].
           right. split; [reflexivity|]. exists native. split; [reflexivity | exact Hto].
        -- right. intros role (t & [H | (_ & n & Hn & Ht)] & Hp'); [discriminate|].
           injection Hn as <-. congruence.
        -- right. intros role (t & [H | (_ & n & Hn & Ht)] & Hp'); [discriminate|].
           injection Hn as <-. congruence.
      * right. intros role (t & [H | (_ & n & Hn & Ht)] & _); [discriminate|].
        injection Hn as <-. congruence.
    + right. intros role (t & [H | (_ & n & Hn & _)] & _); discriminate.
Qed.

(** X25.  A trigger whose ref holds no element cannot be hovered or clicked:
    [enter] and [enterClick] throw before they touch the arrays or call
    anything, while a key press on it is ignored. *)
Theorem unmounted_trigger_throws
    (props : TooltipTrigger.Props) (e : TooltipTrigger.KeyboardEvent)
    (g : TooltipTrigger.Globals) :
  (forall element, ~ TooltipTrigger.mounted props element) ->
  TooltipTrigger.enter props g = (Throw "TypeError", g, []) /\
  TooltipTrigger.enterClick props g = (Throw "TypeError", g, []) /\
  TooltipTrigger.onKeyDownTrigger props e g = (Normal tt, g, []).
Proof.
  intros Hno. pose proof (ref_current_id_unmounted props g Hno) as Hid.
  unfold TooltipTrigger.enter, TooltipTrigger.enterClick.
  unfold TooltipTrigger.bind at 1. rewrite Hid.
  split; [reflexivity|]. split.
  - unfold TooltipTrigger.bind at 1. rewrite Hid. reflexivity.
  - unfold TooltipTrigger.onKeyDownTrigger, TooltipTrigger.mounted in *.
    destruct (TooltipTrigger.triggerProps_ref props) as [[element|]|]; try reflexivity.
    exfalso. apply (Hno element). reflexivity.
Qed.

(** An instance: a ref whose [current] is null. *)
Lemma unmounted_trigger_throws_witness :
  let props := {| TooltipTrigger.triggerProps_ref := Some None;
                  TooltipTrigger.state :=
                    {| TooltipTrigger.state_ref := 0; TooltipTrigger.state_open := false |} |} in
  let g := {| TooltipTrigger.visibleTooltips := []; TooltipTrigger.tooltipStates := [] |} in
  TooltipTrigger.enter props g = (Throw "TypeError", g, []).
Proof.
  intros props g.
  refine (proj1 (unmounted_trigger_throws props
                   {| TooltipTrigger.event_key := "Escape";
                      TooltipTrigger.event_altKey := false |} g _)).
  intros element H. discriminate H.
Defined.

(** X26.  No handler ever unregisters a tooltip state: whatever handler of whatever
    trigger runs, and whether it returns or throws, [tooltipStates] as it was
    is a prefix of [tooltipStates] as it is left. *)
Theorem tooltipStates_never_shrinks
    (props : TooltipTrigger.Props) (h : TooltipHandler) (g : TooltipTrigger.Globals) :
  TooltipTrigger.tooltipStates g
    `prefix_of` TooltipTrigger.tooltipStates
                  (TooltipTrigger.globals_after (run_handler props h) g).
Proof.
  unfold TooltipTrigger.globals_after.
  assert (Hmount : (exists element, TooltipTrigger.mounted props element) \/
                   (forall element, ~ TooltipTrigger.mounted props element)).
  { unfold TooltipTrigger.mounted.
    destruct (TooltipTrigger.triggerProps_ref props) as [[element|]|]; eauto;
      right; intros element H; discriminate. }
  destruct h as [| isHovering | e | | e |]; cbn [run_handler].
  - reflexivity.
  - reflexivity.
  - unfold TooltipTrigger.onKeyDownTrigger, TooltipTrigger.when.
    destruct (TooltipTrigger.triggerProps_ref props) as [[element|]|]; try reflexivity.
    destruct (_ || _); reflexivity.
  - destruct Hmount as [[element Hm] | Hno].
    + rewrite (enter_run props element g Hm). reflexivity.
    + rewrite (proj1 (unmounted_trigger_throws_aux props g Hno)). reflexivity.
  - destruct (classic_leaves_to e) as [[role Hl] | Hno].
    + rewrite (exit_run props e role g Hl). reflexivity.
    + rewrite (exit_throws props e g Hno). reflexivity.
  - destruct Hmount as [[element Hm] | Hno].
    + rewrite (enterClick_run props element g Hm).
      cbn [fst snd TooltipTrigger.tooltipStates]. apply prefix_app_r. reflexivity.
    + rewrite (proj2 (unmounted_trigger_throws_aux props g Hno)). reflexivity.
Qed.

(** An instance: a third click with two ids in the window. *)
Lemma enterClick_keeps_window_witness :
  let props := {| TooltipTrigger.triggerProps_ref := Some (Some {| TooltipTrigger.id := "t" |});
                  TooltipTrigger.state :=
                    {| TooltipTrigger.state_ref := 7; TooltipTrigger.state_open := false |} |} in
  let g := {| TooltipTrigger.visibleTooltips := ["a"; "b"];
              TooltipTrigger.tooltipStates := [7] |} in
  length (TooltipTrigger.visibleTooltips
            (TooltipTrigger.globals_after (TooltipTrigger.enterClick props) g)) = 2 /\
  TooltipTrigger.tooltipStates
    (TooltipTrigger.globals_after (TooltipTrigger.enterClick props) g) = [7; 7].
Proof.
  intros props g.
  destruct (enterClick_keeps_window props {| TooltipTrigger.id := "t" |} g eq_refl)
    as (_ & Hlen & _ & Hstates & _).
  split; [exact Hlen | exact Hstates].
Defined.

(** An instance: the trigger "u" is hovered after the trigger "t" was
    clicked. *)
Lemma enter_closes_registered_witness :
  let clicked := {| TooltipTrigger.triggerProps_ref := Some (Some {| TooltipTrigger.id := "t" |});
                    TooltipTrigger.state :=
                      {| TooltipTrigger.state_ref := 7; TooltipTrigger.state_open := true |} |} in
  let props := {| TooltipTrigger.triggerProps_ref := Some (Some {| TooltipTrigger.id := "u" |});
                  TooltipTrigger.state :=
                    {| TooltipTrigger.state_ref := 8; TooltipTrigger.state_open := false |} |} in
  let g := {| TooltipTrigger.visibleTooltips := []; TooltipTrigger.tooltipStates := [] |} in
  In (TooltipTrigger.setOpen_call 7 false)
     (TooltipTrigger.calls (TooltipTrigger.enter props)
        (TooltipTrigger.globals_after (TooltipTrigger.enterClick clicked) g)).
Proof.
  intros clicked props g.
  exact (proj2 (proj2 (enter_closes_registered props clicked
                         {| TooltipTrigger.id := "u" |} {| TooltipTrigger.id := "t" |} g
                         eq_refl eq_refl))).
Defined.
